(** * The user routes of the hapi mock server

    A shallow embedding of [routes/users.js] (the plugin that [server.js]
    registers) together with the parts of the libraries it calls:
    [parseInt] of the JavaScript core, the string and object schemas of
    joi, the [get]/[find]/[push] chain of lowdb over its in-memory
    adapter, and [Boom.badRequest].

    Conventions of the embedding
    - a JavaScript string is the list of its UTF-16 code units, so that
      [length] is the [.length] that joi compares against [min]/[max];
    - the numbers the routes compute with (record ids, the [uuid]
      counter, the result of [parseInt]) are integers and are embedded
      in [Z]; [NaN] is a value of its own. [Z] agrees with the doubles of
      JavaScript on the range of safe integers, which an array index
      cannot leave;
    - a module-level [let] and the lowdb instance form the state that
      every handler receives and returns. *)

From Stdlib Require Import List ZArith NArith QArith Bool Lia FinFun.
From Stdlib Require Import Ascii String.
Import ListNotations.

Set Warnings "-register-all".
Local Open Scope Z_scope.

(* ===================================================================== *)
(** ** JavaScript values *)
(* ===================================================================== *)

Module JS.

(** A string: its UTF-16 code units. *)
Definition jsstring : Type := list N.

(** A string literal made of Latin-1 characters. *)
Definition lit (s : String.string) : jsstring :=
  List.map N_of_ascii (list_ascii_of_string s).

(** Equality of strings, code unit by code unit. *)
Fixpoint jsstring_eqb (a b : jsstring) : bool :=
  match a, b with
  | [], [] => true
  | x :: a', y :: b' => (x =? y)%N && jsstring_eqb a' b'
  | _, _ => false
  end.

(** The result of a numeric coercion. *)
Inductive number : Type :=
| NaN
| Int (z : Z).

(** A value that came out of [JSON.parse]. *)
Inductive json : Type :=
| JNull
| JBool (b : bool)
| JNum (q : Q)
| JStr (s : jsstring)
| JArr (items : list json)
| JObj (props : list (jsstring * json)).

(** A property read: [None] is [undefined]. *)
Definition value : Type := option json.

(** An object as the list of its own properties in insertion order;
    a read takes the first binding of the key. *)
Definition object : Type := list (jsstring * json).

Fixpoint get (k : jsstring) (o : object) : value :=
  match o with
  | [] => None
  | (k', v) :: rest => if jsstring_eqb k k' then Some v else get k rest
  end.

Definition keys (o : object) : list jsstring := List.map fst o.

(** *** [parseInt(string, 10)] *)

(** StrWhiteSpaceChar: WhiteSpace and LineTerminator. *)
Definition isWhiteSpace (c : N) : bool :=
  (List.existsb (N.eqb c)
     [9; 10; 11; 12; 13; 32; 160; 5760; 8232; 8233; 8239; 8287; 12288; 65279]
   || ((8192 <=? c) && (c <=? 8202)))%N.

Fixpoint trimStart (s : jsstring) : jsstring :=
  match s with
  | [] => []
  | c :: rest => if isWhiteSpace c then trimStart rest else s
  end.

(** The value of a radix-10 digit. *)
Definition digitValue (c : N) : option Z :=
  if ((48 <=? c) && (c <=? 57))%N then Some (Z.of_N (c - 48)) else None.

(** The longest prefix of digits, read as a decimal numeral; [acc] is
    the value of the digits seen so far ([None]: no digit yet). *)
Fixpoint digits (acc : option Z) (s : jsstring) : option Z :=
  match s with
  | [] => acc
  | c :: rest =>
      match digitValue c with
      | Some d =>
          digits (Some (10 * match acc with Some a => a | None => 0 end + d)) rest
      | None => acc
      end
  end.

(** [parseInt(s, 10)]: leading white space is skipped; the sign is -1
    when the first code unit is a hyphen-minus; a first code unit that
    is a plus or a hyphen-minus is removed; then the longest prefix of
    decimal digits is read and what follows is ignored. No digit at all
    gives [NaN]. *)
Definition parseInt (s : jsstring) : number :=
  let s1 := trimStart s in
  let sign :=
    match s1 with
    | c :: _ => if (c =? 45)%N then -1 else 1
    | [] => 1
    end in
  let s2 :=
    match s1 with
    | c :: rest => if ((c =? 43) || (c =? 45))%N then rest else s1
    | [] => s1
    end in
  match digits None s2 with
  | None => NaN
  | Some m => Int (sign * m)
  end.

(** *** [Number::toString] on a safe integer *)

(** The decimal numeral of an integer below 2^53 in absolute value, the
    text that the reply to a POST carries for the new id: the digits
    are produced from the last to the first; [fuel] bounds their number.
    On that range JavaScript writes plain digits; the larger numbers,
    which it rounds and from 10^21 writes with an exponent, are outside
    the domain of this definition. *)
Fixpoint toString_aux (fuel : nat) (n : Z) (acc : jsstring) : jsstring :=
  match fuel with
  | O => acc
  | S f =>
      let acc' := Z.to_N (48 + n mod 10) :: acc in
      if n <? 10 then acc' else toString_aux f (n / 10) acc'
  end.

Definition toString (n : Z) : jsstring :=
  if n <? 0
  then 45%N :: toString_aux (S (Z.to_nat (Z.log2 (- n)))) (- n) []
  else toString_aux (S (Z.to_nat (Z.log2 n))) n [].

(** *** [Object.keys] *)

(** An array index: a key that is the canonical numeral of a number
    below 2^32 - 1, that is, a key that writing its number gives back. *)
Definition arrayIndex (k : jsstring) : option Z :=
  match digits None k with
  | Some v =>
      if (v <? 4294967295) && jsstring_eqb (toString v) k then Some v else None
  | None => None
  end.

(** Insertion into a list of keys sorted by index. *)
Fixpoint insert (i : Z) (k : jsstring) (l : list (Z * jsstring)) : list (Z * jsstring) :=
  match l with
  | [] => [(i, k)]
  | (j, k') :: rest =>
      if i <=? j then (i, k) :: l else (j, k') :: insert i k rest
  end.

(** The keys that are array indices, in ascending order of the index. *)
Fixpoint indexKeys (ks : list jsstring) : list (Z * jsstring) :=
  match ks with
  | [] => []
  | k :: rest =>
      match arrayIndex k with
      | Some i => insert i k (indexKeys rest)
      | None => indexKeys rest
      end
  end.

Definition isIndex (k : jsstring) : bool :=
  match arrayIndex k with
  | Some _ => true
  | None => false
  end.

(** [Object.keys(o)]: the array indices first, in ascending order, then
    the other keys in the order in which they were created. *)
Definition Object_keys (o : object) : list jsstring :=
  List.map snd (indexKeys (keys o))
    ++ List.filter (fun k => negb (isIndex k)) (keys o).

End JS.

Import JS.

(* ===================================================================== *)
(** ** joi: the schemas that the route uses *)
(* ===================================================================== *)

Module Joi.

(** The error codes that a string key of an object schema can raise. *)
Inductive code : Type :=
| any_required
| string_base
| string_empty
| string_min (limit : nat)
| string_max (limit : nat)
| object_unknown.

(** A validation error: the key it is about and its code. *)
Record error : Type := mkError { path : jsstring; reason : code }.

Inductive rule : Type :=
| Min (limit : nat)
| Max (limit : nat).

(** [Joi.string()] and what was chained after it, in the order of the
    calls. *)
Record string_schema : Type :=
  mkString { rules : list rule; presence_required : bool }.

Definition string : string_schema :=
  {| rules := []; presence_required := false |}.

Definition min (limit : nat) (s : string_schema) : string_schema :=
  {| rules := rules s ++ [Min limit]; presence_required := presence_required s |}.

Definition max (limit : nat) (s : string_schema) : string_schema :=
  {| rules := rules s ++ [Max limit]; presence_required := presence_required s |}.

Definition required (s : string_schema) : string_schema :=
  {| rules := rules s; presence_required := true |}.

(** One rule on a string; lengths are counted in code units. *)
Definition check_rule (s : jsstring) (r : rule) : option code :=
  match r with
  | Min limit => if (limit <=? List.length s)%nat then None else Some (string_min limit)
  | Max limit => if (List.length s <=? limit)%nat then None else Some (string_max limit)
  end.

(** The rules are tried in order and the first failure is reported. *)
Fixpoint check_rules (s : jsstring) (rs : list rule) : option code :=
  match rs with
  | [] => None
  | r :: rest =>
      match check_rule s r with
      | Some c => Some c
      | None => check_rules s rest
      end
  end.

(** A string schema on the value read at a key: [undefined] is accepted
    unless the key is required; a value that is not a string is refused;
    the empty string is refused before any rule is tried. [None] is
    success. *)
Definition validate_string (sch : string_schema) (v : value) : option code :=
  match v with
  | None => if presence_required sch then Some any_required else None
  | Some (JStr []) => Some string_empty
  | Some (JStr s) => check_rules s (rules sch)
  | Some _ => Some string_base
  end.

(** [Joi.object({...})]: the keys with their schemas, in the order of
    the literal. *)
Definition object_schema : Type := list (jsstring * string_schema).

(** The keys of the schema are validated in order; the first error
    stops the validation. *)
Fixpoint validate_children (children : object_schema) (o : object) : option error :=
  match children with
  | [] => None
  | (k, sch) :: rest =>
      match validate_string sch (get k o) with
      | Some c => Some (mkError k c)
      | None => validate_children rest o
      end
  end.

Definition known (children : object_schema) (k : jsstring) : bool :=
  List.existsb (jsstring_eqb k) (List.map fst children).

(** The first key of the object that the schema does not name, in the
    order of [Object.keys]. *)
Definition unprocessed (children : object_schema) (o : object) : option jsstring :=
  List.find (fun k => negb (known children k)) (Object_keys o).

(** Validation of an object against the schema. The schema was built
    without [.unknown()] and the route passes no [allowUnknown] option,
    so a key that the schema does not name is an error, raised after
    the named keys have passed. On success the value is handed on as it
    came. *)
Definition validate (children : object_schema) (o : object) : error + object :=
  match validate_children children o with
  | Some e => inl e
  | None =>
      match unprocessed children o with
      | Some k => inl (mkError k object_unknown)
      | None => inr o
      end
  end.

End Joi.

(* ===================================================================== *)
(** ** Boom *)
(* ===================================================================== *)

Module Boom.

Record t : Type := mk { statusCode : Z; error : jsstring; message : jsstring }.

Definition badRequest (msg : jsstring) : t :=
  {| statusCode := 400; error := lit "Bad Request"; message := msg |}.

End Boom.

(* ===================================================================== *)
(** ** The user records and lowdb *)
(* ===================================================================== *)

Module User.

(** A user as the routes build and store it: [id] is a number, the
    other four properties hold whatever was read from the payload
    ([None]: [undefined]). *)
Record t : Type := mk {
  id : Z;
  first_name : value;
  last_name : value;
  city : value;
  country : value
}.

(** The properties that [JSON.stringify] writes for a user: a property
    whose value is [undefined] is left out. *)
Definition prop (k : String.string) (v : value) : list (jsstring * json) :=
  match v with
  | Some j => [(lit k, j)]
  | None => []
  end.

Definition toJSON (u : t) : object :=
  (lit "id", JNum (inject_Z (id u)))
    :: prop "first_name" (first_name u)
    ++ prop "last_name" (last_name u)
    ++ prop "city" (city u)
    ++ prop "country" (country u).

End User.

Module Lowdb.

(** The database of the in-memory adapter: one collection. *)
Record t : Type := mk { users : list User.t }.

(** [db.defaults({ users: init }).write()] on the empty database. *)
Definition defaults (init : list User.t) : t := {| users := init |}.

(** The predicate of [.find({ id: n })]: the [id] of the element equals
    [n]. The ids are numbers, so [NaN] matches none of them. *)
Definition matches (n : number) (u : User.t) : bool :=
  match n with
  | NaN => false
  | Int z => User.id u =? z
  end.

(** [.find({ id: n }).value()]: the first element that matches, or
    [undefined]. *)
Definition find (n : number) (db : t) : option User.t :=
  List.find (matches n) (users db).

(** [.push(u).write()]: the element is added at the end. *)
Definition push (u : User.t) (db : t) : t :=
  {| users := users db ++ [u] |}.

End Lowdb.

(* ===================================================================== *)
(** ** routes/users.js *)
(* ===================================================================== *)

(** Method chaining, read left to right as in the source. *)
Notation "x '|>' f" := (f x) (at level 45, left associativity, only parsing).

Definition user (n : Z) (first last town land : jsstring) : User.t :=
  User.mk n (Some (JStr first)) (Some (JStr last)) (Some (JStr town)) (Some (JStr land)).

(** [db/users.json]. *)
Definition initUserCollection : list User.t :=
  [ user 1 (lit "Guillaume") (lit "Potapczuk") (lit "Dopang") (lit "Indonesia");
    user 2 (lit "Torre") (lit "Burnell") (lit "Shiqiao") (lit "China");
    user 3 (lit "Donalt") (lit "Giannoni") (lit "General Elizardo Aquino") (lit "Paraguay");
    user 4 (lit "Jade") (lit "Warsap") (lit "Fuhe") (lit "China");
    user 5 (lit "Violet") (lit "Hinzer") (lit "Bondo")
           (lit "Democratic Republic of the Congo");
    user 6 (lit "Eleanore") (lit "Leiden") (lit "El Porvenir") (lit "Honduras");
    user 7 (lit "Andris") (lit "Bysouth") (lit "Moss") (lit "Norway");
    user 8 (lit "Hilary") (lit "Speenden") (lit "R" ++ [257%N] ++ lit "mhormoz") (lit "Iran");
    user 9 (lit "Albertine") (lit "Courage") (lit "Devon") (lit "Canada");
    user 10 (lit "Aubert") (lit "Favill") (lit "Murfreesboro") (lit "United States");
    user 11 (lit "Rik") (lit "Rushforth") (lit "Sidokumpul") (lit "Indonesia");
    user 12 (lit "Nataline") (lit "Pickvance") (lit "Arax" ++ [225%N]) (lit "Brazil");
    user 13 (lit "Irina") (lit "Trounce") (lit "Kardzhin") (lit "Russia");
    user 14 (lit "Bowie") (lit "Ranklin") (lit "Jinhe") (lit "China") ].

(** The state of the module: the database and the [uuid] counter. *)
Record state : Type := mkState { db : Lowdb.t; uuid : Z }.

(** The state once the module is loaded with the collection [init]:
    [db.defaults({ users: init }).write()] and
    [let uuid = init.length + 1]. *)
Definition start (init : list User.t) : state :=
  {| db := Lowdb.defaults init; uuid := Z.of_nat (List.length init) + 1 |}.

Definition userPostRequestSchema : Joi.object_schema :=
  [ (lit "first_name", Joi.string |> Joi.min 3 |> Joi.max 64 |> Joi.required);
    (lit "last_name",  Joi.string |> Joi.min 3 |> Joi.max 64);
    (lit "city",       Joi.string |> Joi.min 1 |> Joi.max 64);
    (lit "country",    Joi.string |> Joi.min 1 |> Joi.max 64 |> Joi.required) ].

(** The body of the reply to a successful POST. *)
Module Created.
Record t : Type := mk { message : jsstring; id : Z }.
End Created.

(** What a handler returns, or the error it throws. *)
Inductive reply : Type :=
| Users (all : list User.t)
| OneUser (u : User.t)
| Created (c : Created.t)
| Failed (b : Boom.t).

(** GET /user *)
Definition listUsers (s : state) : reply * state :=
  let users := Lowdb.users (db s) in
  (Users users, s).

(** GET /user/{id} *)
Definition getUser (id : jsstring) (s : state) : reply * state :=
  let user := Lowdb.find (parseInt id) (db s) in
  match user with
  | Some u => (OneUser u, s)
  | None => (Failed (Boom.badRequest (lit "id " ++ id ++ lit " not found")), s)
  end.

(** The handler of POST /user. *)
Definition createUser (payload : object) (s : state) : reply * state :=
  let first_name := get (lit "first_name") payload in
  let last_name := get (lit "last_name") payload in
  let city := get (lit "city") payload in
  let country := get (lit "country") payload in
  let id := uuid s in
  let s := {| db := db s; uuid := uuid s + 1 |} in
  let newUser := User.mk id first_name last_name city country in
  let s := {| db := Lowdb.push newUser (db s); uuid := uuid s |} in
  (Created {| Created.message := lit "user created"; Created.id := id |}, s).

(** ** server.js: validation in front of the handler *)

Section Server.

(** The text of a validation error, [err.message]. *)
Variable err_message : Joi.error -> jsstring.

Definition failAction (err : Joi.error) : Boom.t :=
  Boom.badRequest (err_message err).

(** POST /user: the payload is validated first; the handler runs on the
    validated value. *)
Definition postUser (payload : object) (s : state) : reply * state :=
  match Joi.validate userPostRequestSchema payload with
  | inl err => (Failed (failAction err), s)
  | inr validated => createUser validated s
  end.

Inductive request : Type :=
| GET_users
| GET_user (id : jsstring)
| POST_user (payload : object).

Definition dispatch (r : request) (s : state) : reply * state :=
  match r with
  | GET_users => listUsers s
  | GET_user id => getUser id s
  | POST_user payload => postUser payload s
  end.

(** The requests are handled one after the other. *)
Fixpoint serve (rs : list request) (s : state) : list reply * state :=
  match rs with
  | [] => ([], s)
  | r :: rest =>
      let '(out, s1) := dispatch r s in
      let '(outs, s2) := serve rest s1 in
      (out :: outs, s2)
  end.

End Server.

(** The ids that the successful POSTs of a run returned, in order. *)
Fixpoint created_ids (out : list reply) : list Z :=
  match out with
  | [] => []
  | Created c :: rest => Created.id c :: created_ids rest
  | _ :: rest => created_ids rest
  end.

(** The record that the handler builds from a payload and an id. *)
Definition newUser (n : Z) (payload : object) : User.t :=
  User.mk n (get (lit "first_name") payload) (get (lit "last_name") payload)
            (get (lit "city") payload) (get (lit "country") payload).

(** Whether the four keys of the schema pass their rules. *)
Definition fields_ok (payload : object) : bool :=
  match Joi.validate_children userPostRequestSchema payload with
  | None => true
  | Some _ => false
  end.

(** Whether the validator lets the payload through. *)
Definition accepted (payload : object) : bool :=
  match Joi.validate userPostRequestSchema payload with
  | inr _ => true
  | inl _ => false
  end.

(** The payloads of the POSTs of a run that pass validation. *)
Fixpoint accepted_payloads (rs : list request) : list object :=
  match rs with
  | [] => []
  | POST_user p :: rest =>
      if accepted p then p :: accepted_payloads rest else accepted_payloads rest
  | _ :: rest => accepted_payloads rest
  end.

(** The records for a list of payloads, numbered from [next]. *)
Fixpoint records_from (next : Z) (ps : list object) : list User.t :=
  match ps with
  | [] => []
  | p :: rest => newUser next p :: records_from (next + 1) rest
  end.

Definition is_read (r : request) : bool :=
  match r with
  | POST_user _ => false
  | _ => true
  end.

Definition ids (s : state) : list Z := List.map User.id (Lowdb.users (db s)).

(** The invariant of the store: the ids are distinct and below the
    counter. *)
Definition numbered (s : state) : Prop :=
  NoDup (ids s) /\ Forall (fun i => i < uuid s) (ids s).

(** Whether the rule that the schema has for the key [k] passes on the
    payload: the validation against the schema cut down to that key. *)
Definition field_passes (k : String.string) (payload : object) : bool :=
  match Joi.validate_children
          (List.filter (fun child => jsstring_eqb (fst child) (lit k))
                       userPostRequestSchema) payload with
  | None => true
  | Some _ => false
  end.

(** Whether every key of the payload is one that the schema names. *)
Definition all_known (payload : object) : bool :=
  List.forallb (Joi.known userPostRequestSchema) (keys payload).

(** The keys of the schema, in the order of the literal. *)
Definition schema_keys : list String.string :=
  ["first_name"; "last_name"; "city"; "country"]%string.

(** The first key of the schema whose rule fails on the payload. *)
Definition first_failing (payload : object) : option String.string :=
  List.find (fun k => negb (field_passes k payload)) schema_keys.

(** The properties of a stored record other than its id, as a payload:
    its JSON less the leading [id]. *)
Definition payload_of (u : User.t) : object := List.tl (User.toJSON u).

(** The rule that the schema has for a key. *)
Definition rule_of (k : String.string) : option Joi.string_schema :=
  option_map snd
    (List.find (fun child => jsstring_eqb (fst child) (lit k)) userPostRequestSchema).

(* ===================================================================== *)
(** ** Properties of the handlers *)
(* ===================================================================== *)

Lemma jsstring_eqb_eq (a b : jsstring) : jsstring_eqb a b = true <-> a = b.
Proof.
  revert b. induction a as [|x a IH]; intros [|y b]; simpl;
    try (split; [discriminate|discriminate]); [tauto|].
  rewrite andb_true_iff, N.eqb_eq, IH. split.
  - now intros [-> ->].
  - now intros [= -> ->].
Qed.

Lemma jsstring_eqb_refl (a : jsstring) : jsstring_eqb a a = true.
Proof. now apply jsstring_eqb_eq. Qed.

(** The validator hands the payload on as it came. *)
Lemma validate_inr (children : Joi.object_schema) (p v : object) :
  Joi.validate children p = inr v -> v = p.
Proof.
  unfold Joi.validate.
  destruct (Joi.validate_children children p); [discriminate|].
  destruct (Joi.unprocessed children p); [discriminate|].
  now intros [= <-].
Qed.

Lemma accepted_true (p : object) :
  accepted p = true -> Joi.validate userPostRequestSchema p = inr p.
Proof.
  unfold accepted. destruct (Joi.validate userPostRequestSchema p) eqn:E.
  - discriminate.
  - intros _. now rewrite (validate_inr _ _ _ E).
Qed.

Lemma accepted_false (p : object) :
  accepted p = false -> exists e, Joi.validate userPostRequestSchema p = inl e.
Proof.
  unfold accepted. destruct (Joi.validate userPostRequestSchema p) eqn:E.
  - intros _. now exists e.
  - discriminate.
Qed.

Lemma createUser_eq (p : object) (s : state) :
  createUser p s =
    (Created (Created.mk (lit "user created") (uuid s)),
     mkState (Lowdb.mk (Lowdb.users (db s) ++ [newUser (uuid s) p])) (uuid s + 1)).
Proof. reflexivity. Qed.

(** One request adds at most one payload. *)
Lemma one_payload (r : request) (p : object) (ps : list object) :
  accepted_payloads [r] = p :: ps -> ps = [].
Proof.
  destruct r as [| |q]; simpl; try discriminate.
  destruct (accepted q); [now intros [= _ <-]|discriminate].
Qed.

Section Runs.

Variable err_message : Joi.error -> jsstring.

Lemma postUser_accepted (p : object) (s : state) :
  accepted p = true -> postUser err_message p s = createUser p s.
Proof. intros H. unfold postUser. now rewrite (accepted_true _ H). Qed.

Lemma postUser_refused (p : object) (s : state) :
  accepted p = false -> exists e, postUser err_message p s = (Failed (failAction err_message e), s).
Proof.
  intros H. destruct (accepted_false _ H) as [e E].
  exists e. unfold postUser. now rewrite E.
Qed.

(** A read leaves the state as it was. *)
Lemma read_keeps_state (r : request) (s : state) :
  is_read r = true -> snd (dispatch err_message r s) = s.
Proof.
  destruct r as [|seg|p]; simpl; intros H; try discriminate; [reflexivity|].
  unfold getUser. now destruct (Lowdb.find (parseInt seg) (db s)).
Qed.

Lemma reads_keep_state (rs : list request) (s : state) :
  forallb is_read rs = true -> snd (serve err_message rs s) = s.
Proof.
  revert s. induction rs as [|r rs IH]; intros s H; [reflexivity|].
  simpl in H. apply andb_prop in H as [Hr Hrs].
  simpl. pose proof (read_keeps_state r s Hr) as E.
  destruct (dispatch err_message r s) as [out s1]. simpl in E. subst s1.
  specialize (IH s Hrs). destruct (serve err_message rs s) as [outs s2]. exact IH.
Qed.

(** What one request does to the counter and to the collection. *)
Lemma dispatch_state (r : request) (s : state) :
  snd (dispatch err_message r s) =
    match accepted_payloads [r] with
    | [] => s
    | p :: _ =>
        mkState (Lowdb.mk (Lowdb.users (db s) ++ [newUser (uuid s) p])) (uuid s + 1)
    end.
Proof.
  destruct r as [|seg|p].
  - reflexivity.
  - now apply read_keeps_state.
  - simpl. destruct (accepted p) eqn:A.
    + now rewrite (postUser_accepted _ _ A).
    + destruct (postUser_refused p s A) as [e ->]. reflexivity.
Qed.

Lemma dispatch_created (r : request) (s : state) :
  created_ids [fst (dispatch err_message r s)] =
    match accepted_payloads [r] with
    | [] => []
    | _ :: _ => [uuid s]
    end.
Proof.
  destruct r as [|seg|p].
  - reflexivity.
  - simpl. unfold getUser. now destruct (Lowdb.find (parseInt seg) (db s)).
  - simpl. destruct (accepted p) eqn:A.
    + now rewrite (postUser_accepted _ _ A).
    + destruct (postUser_refused p s A) as [e ->]. reflexivity.
Qed.

Lemma accepted_payloads_cons (r : request) (rs : list request) :
  accepted_payloads (r :: rs) = accepted_payloads [r] ++ accepted_payloads rs.
Proof.
  destruct r as [|seg|p]; simpl; try reflexivity. now destruct (accepted p).
Qed.

Lemma created_ids_cons (o : reply) (os : list reply) :
  created_ids (o :: os) = created_ids [o] ++ created_ids os.
Proof. now destruct o. Qed.

Lemma serve_cons (r : request) (rs : list request) (s : state) :
  serve err_message (r :: rs) s =
    (fst (dispatch err_message r s) :: fst (serve err_message rs (snd (dispatch err_message r s))),
     snd (serve err_message rs (snd (dispatch err_message r s)))).
Proof.
  simpl. destruct (dispatch err_message r s) as [out s1]. simpl.
  now destruct (serve err_message rs s1).
Qed.

(** The collection after a run: what was there, then one record for
    each accepted POST, in the order of the requests. *)
Lemma serve_users (rs : list request) (s : state) :
  Lowdb.users (db (snd (serve err_message rs s))) =
    Lowdb.users (db s) ++ records_from (uuid s) (accepted_payloads rs).
Proof.
  revert s. induction rs as [|r rs IH]; intros s.
  - simpl. now rewrite app_nil_r.
  - rewrite serve_cons, accepted_payloads_cons. cbn [snd].
    rewrite IH, dispatch_state.
    destruct (accepted_payloads [r]) as [|p ps] eqn:E; [reflexivity|].
    rewrite (one_payload _ _ _ E).
    cbn [db uuid Lowdb.users]. now rewrite <- app_assoc.
Qed.

Lemma serve_uuid (rs : list request) (s : state) :
  uuid (snd (serve err_message rs s)) = uuid s + Z.of_nat (List.length (accepted_payloads rs)).
Proof.
  revert s. induction rs as [|r rs IH]; intros s.
  - simpl. lia.
  - rewrite serve_cons, accepted_payloads_cons. cbn [snd].
    rewrite IH, dispatch_state, length_app.
    destruct (accepted_payloads [r]) as [|p ps] eqn:E; [simpl; lia|].
    rewrite (one_payload _ _ _ E).
    cbn [uuid List.length]. lia.
Qed.

Lemma serve_created (rs : list request) (s : state) :
  created_ids (fst (serve err_message rs s)) =
    List.map User.id (records_from (uuid s) (accepted_payloads rs)).
Proof.
  revert s. induction rs as [|r rs IH]; intros s; [reflexivity|].
  rewrite serve_cons, accepted_payloads_cons. cbn [fst].
  rewrite created_ids_cons, IH, dispatch_created, dispatch_state.
  destruct (accepted_payloads [r]) as [|p ps] eqn:E; [reflexivity|].
  rewrite (one_payload _ _ _ E).
  reflexivity.
Qed.

End Runs.

Lemma records_from_ids (next : Z) (ps : list object) :
  List.map User.id (records_from next ps) =
    List.map (fun k => next + Z.of_nat k) (seq 0 (List.length ps)).
Proof.
  revert next. induction ps as [|p ps IH]; intros next; [reflexivity|].
  cbn [records_from List.map List.length seq]. rewrite IH, <- seq_shift, map_map.
  f_equal; [simpl; lia|]. apply map_ext. intros k. lia.
Qed.

Lemma records_from_length (next : Z) (ps : list object) :
  List.length (records_from next ps) = List.length ps.
Proof. revert next. induction ps; intros; simpl; auto. Qed.

(** *** The id counter *)

(** C1. On a store seeded with S records, the ids returned by the N
    successful creates of any run are S + 1, ..., S + N in the order of
    creation, hence pairwise distinct; the counter starts at S + 1, and
    a request either leaves it as it is or, when it is a create that
    passed validation, adds one to it. *)
Theorem created_ids_follow_seed :
  forall (err_message : Joi.error -> jsstring) (seed : list User.t) (rs : list request),
    let S := Z.of_nat (List.length seed) in
    let run := serve err_message rs (start seed) in
    let N := List.length (created_ids (fst run)) in
    uuid (start seed) = S + 1
    /\ created_ids (fst run) = List.map (fun k => S + Z.of_nat k) (seq 1 N)
    /\ NoDup (created_ids (fst run))
    /\ uuid (snd run) = S + 1 + Z.of_nat N
    /\ (forall r s, uuid (snd (dispatch err_message r s)) =
                      uuid s + Z.of_nat (List.length (accepted_payloads [r]))).
Proof.
  intros err_message seed rs S run N.
  assert (HN : N = List.length (accepted_payloads rs)).
  { unfold N, run. now rewrite serve_created, length_map, records_from_length. }
  assert (Hids : created_ids (fst run) = List.map (fun k => S + Z.of_nat k) (seq 1 N)).
  { unfold run. rewrite serve_created, records_from_ids, <- HN.
    rewrite <- seq_shift, map_map. apply map_ext. intros k.
    unfold start, S. cbn [uuid]. lia. }
  split; [reflexivity|]. split; [exact Hids|]. split; [|split].
  - rewrite Hids. apply Injective_map_NoDup; [|apply seq_NoDup].
    intros a b H. lia.
  - unfold run. rewrite serve_uuid, <- HN. unfold start, S. cbn [uuid]. lia.
  - intros r s. rewrite dispatch_state.
    destruct (accepted_payloads [r]) as [|p ps] eqn:E; [simpl; lia|].
    rewrite (one_payload _ _ _ E).
    cbn [uuid List.length]. lia.
Qed.

(** *** Create *)

(** C7. A payload that passes the validator is created without
    failure: the reply carries the message "user created" and the value
    of the counter as the new id; the collection is the old one followed
    by the one new record built from the payload, and the counter is one
    more than it was. *)
Theorem create_after_validation :
  forall (err_message : Joi.error -> jsstring) (payload validated : object) (s : state),
    Joi.validate userPostRequestSchema payload = inr validated ->
    postUser err_message payload s =
      (Created {| Created.message := lit "user created"; Created.id := uuid s |},
       {| db := {| Lowdb.users :=
                     Lowdb.users (db s)
                       ++ [ {| User.id := uuid s;
                               User.first_name := get (lit "first_name") payload;
                               User.last_name := get (lit "last_name") payload;
                               User.city := get (lit "city") payload;
                               User.country := get (lit "country") payload |} ] |};
          uuid := uuid s + 1 |}).
Proof.
  intros err_message payload validated s H.
  unfold postUser. rewrite H. rewrite (validate_inr _ _ _ H). reflexivity.
Qed.

Lemma create_after_validation_witness :
  let ada := [(lit "first_name", JStr (lit "Ada")); (lit "country", JStr (lit "UK"))] in
  fst (postUser (fun _ => lit "invalid") ada (start initUserCollection)) =
    Created {| Created.message := lit "user created"; Created.id := 15 |}.
Proof.
  intros ada.
  rewrite (create_after_validation (fun _ => lit "invalid") ada ada
             (start initUserCollection)); reflexivity.
Defined.

(** *** List *)

(** C8. In every state the list handler replies with the whole
    collection and leaves the state as it was; after any run from a
    seed the collection is the seed followed by the records of the
    accepted creates in the order in which they were made. *)
Theorem list_returns_all_in_order :
  forall (err_message : Joi.error -> jsstring),
    (forall s, listUsers s = (Users (Lowdb.users (db s)), s))
    /\ (forall seed rs,
          let s := snd (serve err_message rs (start seed)) in
          listUsers s =
            (Users (seed ++ records_from (Z.of_nat (List.length seed) + 1)
                                         (accepted_payloads rs)), s)).
Proof.
  intros err_message. split; [reflexivity|].
  intros seed rs s. unfold listUsers, s. now rewrite serve_users.
Qed.

(** *** Reads are repeatable *)

(** C9. A read (list, or get by id) that is repeated after any number
    of reads, with no create in between, gives the reply it gave the
    first time. *)
Theorem reads_repeatable :
  forall (err_message : Joi.error -> jsstring) (r : request) (between : list request)
         (s : state),
    is_read r = true ->
    forallb is_read between = true ->
    let s1 := snd (serve err_message (r :: between) s) in
    fst (dispatch err_message r s1) = fst (dispatch err_message r s)
    /\ s1 = s.
Proof.
  intros err_message r between s Hr Hb s1.
  assert (E : s1 = s).
  { unfold s1. apply reads_keep_state. simpl. now rewrite Hr, Hb. }
  now rewrite E.
Qed.

Lemma reads_repeatable_witness :
  let s := start initUserCollection in
  fst (dispatch (fun _ => lit "invalid") (GET_user (lit "5"))
         (snd (serve (fun _ => lit "invalid") [GET_user (lit "5"); GET_users] s))) =
  fst (dispatch (fun _ => lit "invalid") (GET_user (lit "5")) s).
Proof.
  intros s.
  exact (proj1 (reads_repeatable (fun _ => lit "invalid") (GET_user (lit "5"))
                  [GET_users] s eq_refl eq_refl)).
Defined.

(** *** Lookup by id *)

Lemma find_app {A : Type} (f : A -> bool) (l l' : list A) :
  List.find f (l ++ l') =
    match List.find f l with
    | Some x => Some x
    | None => List.find f l'
    end.
Proof.
  induction l as [|a l IH]; [reflexivity|].
  simpl. now destruct (f a).
Qed.

Lemma find_all_false {A : Type} (f : A -> bool) (l : list A) :
  (forall x, In x l -> f x = false) -> List.find f l = None.
Proof.
  induction l as [|a l IH]; intros H; [reflexivity|].
  simpl. rewrite (H a (or_introl eq_refl)). apply IH.
  intros x Hx. apply H. now right.
Qed.

(** With distinct ids, the lookup of the id of a stored record finds
    that record. *)
Lemma find_stored (l : list User.t) (u : User.t) :
  NoDup (List.map User.id l) -> In u l ->
  List.find (Lowdb.matches (Int (User.id u))) l = Some u.
Proof.
  induction l as [|a l IH]; intros ND Hin; [contradiction|].
  simpl in ND. apply NoDup_cons_iff in ND as [Hfresh ND].
  simpl. destruct Hin as [->|Hin].
  - now rewrite Z.eqb_refl.
  - destruct (User.id a =? User.id u) eqn:E.
    + apply Z.eqb_eq in E. exfalso. apply Hfresh. rewrite E.
      now apply in_map.
    + now apply IH.
Qed.

(** In any state, the lookup of the id of a stored record finds a
    stored record with that id. *)
Lemma find_some_stored (l : list User.t) (u : User.t) :
  In u l ->
  exists u', List.find (Lowdb.matches (Int (User.id u))) l = Some u'
             /\ User.id u' = User.id u /\ In u' l.
Proof.
  intros Hin.
  destruct (List.find (Lowdb.matches (Int (User.id u))) l) as [u'|] eqn:E.
  - exists u'. apply find_some in E as [Hin' Hm]. simpl in Hm.
    apply Z.eqb_eq in Hm. auto.
  - pose proof (find_none _ _ E u Hin) as Hm. simpl in Hm.
    now rewrite Z.eqb_refl in Hm.
Qed.

Lemma start_numbered (seed : list User.t) :
  NoDup (List.map User.id seed) ->
  Forall (fun i => i <= Z.of_nat (List.length seed)) (List.map User.id seed) ->
  numbered (start seed).
Proof.
  intros ND B. split; [exact ND|].
  unfold ids, start. cbn [db uuid Lowdb.defaults Lowdb.users].
  eapply Forall_impl; [|exact B]. intros i Hi. simpl in Hi. lia.
Qed.

Lemma initUserCollection_numbered : numbered (start initUserCollection).
Proof.
  assert (E : List.map User.id initUserCollection = List.map Z.of_nat (seq 1 14))
    by reflexivity.
  apply start_numbered; rewrite E.
  - apply Injective_map_NoDup; [|apply seq_NoDup]. intros a b H. lia.
  - apply Forall_forall. intros i Hi. apply in_map_iff in Hi as [k [<- Hk]].
    apply in_seq in Hk. simpl. lia.
Qed.

Lemma push_numbered (p : object) (s : state) :
  numbered s ->
  numbered (mkState (Lowdb.mk (Lowdb.users (db s) ++ [newUser (uuid s) p])) (uuid s + 1)).
Proof.
  intros [ND B]. unfold numbered, ids in *. cbn [db uuid Lowdb.users].
  rewrite map_app. cbn [List.map newUser User.id]. split.
  - apply NoDup_app; [exact ND|repeat constructor; auto|].
    intros i Hi [<-|[]]. rewrite Forall_forall in B. specialize (B _ Hi). lia.
  - apply Forall_app. split.
    + eapply Forall_impl; [|exact B]. intros i Hi. simpl in Hi. lia.
    + repeat constructor. lia.
Qed.

Lemma serve_numbered (err_message : Joi.error -> jsstring) (rs : list request) (s : state) :
  numbered s -> numbered (snd (serve err_message rs s)).
Proof.
  revert s. induction rs as [|r rs IH]; intros s H; [exact H|].
  rewrite serve_cons. cbn [snd]. apply IH. rewrite dispatch_state.
  destruct (accepted_payloads [r]); [exact H|now apply push_numbered].
Qed.

(** The record that a create has just pushed is the one that a lookup
    of its id finds. *)
Lemma find_created (p : object) (s : state) :
  numbered s ->
  Lowdb.find (Int (uuid s)) (db (snd (createUser p s))) = Some (newUser (uuid s) p).
Proof.
  intros [_ B]. rewrite createUser_eq. unfold Lowdb.find. cbn [snd db Lowdb.users].
  rewrite find_app, find_all_false.
  - simpl. now rewrite Z.eqb_refl.
  - intros u Hu. simpl. apply Z.eqb_neq. rewrite Forall_forall in B.
    specialize (B (User.id u) (in_map _ _ _ Hu)). simpl in B. lia.
Qed.

(** *** The coercion of the segment *)

Lemma digit_range (c : N) (d : Z) :
  digitValue c = Some d -> (48 <= c <= 57)%N.
Proof.
  unfold digitValue. destruct ((48 <=? c)%N && (c <=? 57)%N) eqn:E; [|discriminate].
  intros _. apply andb_prop in E as [L U].
  apply N.leb_le in L. apply N.leb_le in U. lia.
Qed.

(** A digit is neither white space nor a sign. *)
Lemma digit_plain (c : N) (d : Z) :
  digitValue c = Some d ->
  isWhiteSpace c = false /\ (c =? 45)%N = false /\ (c =? 43)%N = false.
Proof.
  intros H. apply digit_range in H.
  assert (C : (c = 48 \/ c = 49 \/ c = 50 \/ c = 51 \/ c = 52 \/ c = 53
               \/ c = 54 \/ c = 55 \/ c = 56 \/ c = 57)%N) by lia.
  repeat (destruct C as [->|C]; [repeat split|]). subst c. repeat split.
Qed.

Lemma digitValue_nonneg (c : N) (d : Z) : digitValue c = Some d -> 0 <= d.
Proof.
  unfold digitValue. destruct ((48 <=? c)%N && (c <=? 57)%N); [|discriminate].
  intros [= <-]. lia.
Qed.

(** Once a digit has been read, the result is a number. *)
Lemma digits_started (a : Z) (s : jsstring) :
  0 <= a -> exists m, digits (Some a) s = Some m /\ 0 <= m.
Proof.
  revert a. induction s as [|c s IH]; intros a Ha.
  - exists a. now split.
  - cbn [digits]. destruct (digitValue c) as [d|] eqn:E.
    + apply IH. apply digitValue_nonneg in E. lia.
    + exists a. now split.
Qed.

(** What follows the digits is not read. *)
Lemma digits_prefix (acc : option Z) (ds rest : jsstring) :
  Forall (fun c => digitValue c <> None) ds ->
  match rest with [] => True | c :: _ => digitValue c = None end ->
  digits acc (ds ++ rest) = digits acc ds.
Proof.
  intros Hds Hrest. revert acc. induction Hds as [|c ds Hc Hds IH]; intros acc.
  - simpl. destruct rest as [|c rest]; [reflexivity|]. simpl. now rewrite Hrest.
  - simpl. destruct (digitValue c); [apply IH|reflexivity].
Qed.

Lemma parseInt_digit_first (c : N) (d : Z) (s : jsstring) :
  digitValue c = Some d ->
  parseInt (c :: s) =
    match digits None (c :: s) with
    | None => NaN
    | Some m => Int m
    end.
Proof.
  intros H. destruct (digit_plain c d H) as [W [M P]].
  unfold parseInt. cbn [trimStart]. rewrite W, M, P. cbn [orb].
  destruct (digits None (c :: s)) as [m|]; [|reflexivity].
  f_equal. lia.
Qed.

(** A segment whose first code unit is neither white space, nor a
    sign, nor a digit is coerced to NaN. *)
Lemma parseInt_no_digit (c : N) (rest : jsstring) :
  isWhiteSpace c = false -> c <> 45%N -> c <> 43%N -> digitValue c = None ->
  parseInt (c :: rest) = NaN.
Proof.
  intros W M P D. unfold parseInt. cbn [trimStart]. rewrite W.
  apply N.eqb_neq in M. apply N.eqb_neq in P. rewrite M, P. cbn [orb digits].
  now rewrite D.
Qed.

(** C3. In every state that the server reaches from its seed, the
    record that a create builds is the one that a lookup of the
    returned id finds in the state that the create leaves, and a GET
    whose segment reads as that id replies with it. On the seed of 14
    records, a POST of first_name "Ada" and country "UK" returns id 15
    and GET /user/15 then replies with the record of id 15 whose JSON
    has the properties id, first_name and country only. *)
Theorem create_then_find :
  forall (err_message : Joi.error -> jsstring),
    (forall (rs : list request) (payload : object),
        let s := snd (serve err_message rs (start initUserCollection)) in
        let created := newUser (uuid s) payload in
        let s' := snd (createUser payload s) in
        fst (createUser payload s) =
          Created {| Created.message := lit "user created"; Created.id := uuid s |}
        /\ Lowdb.find (Int (uuid s)) (db s') = Some created
        /\ (forall seg, parseInt seg = Int (uuid s) ->
                        getUser seg s' = (OneUser created, s')))
    /\ (let ada := [(lit "first_name", JStr (lit "Ada")); (lit "country", JStr (lit "UK"))] in
        let u15 := {| User.id := 15;
                      User.first_name := Some (JStr (lit "Ada"));
                      User.last_name := None;
                      User.city := None;
                      User.country := Some (JStr (lit "UK")) |} in
        List.length initUserCollection = 14%nat
        /\ fst (serve err_message [POST_user ada; GET_user (lit "15")]
                  (start initUserCollection)) =
             [ Created {| Created.message := lit "user created"; Created.id := 15 |};
               OneUser u15 ]
        /\ User.toJSON u15 =
             [ (lit "id", JNum (inject_Z 15));
               (lit "first_name", JStr (lit "Ada"));
               (lit "country", JStr (lit "UK")) ]).
Proof.
  intros err_message. split.
  - intros rs payload s created s'.
    assert (F : Lowdb.find (Int (uuid s)) (db s') = Some created).
    { apply find_created. apply serve_numbered, initUserCollection_numbered. }
    split; [reflexivity|]. split; [exact F|].
    intros seg Hseg. unfold getUser. now rewrite Hseg, F.
  - repeat split.
Qed.

Lemma create_then_find_witness :
  let ada := [(lit "first_name", JStr (lit "Ada")); (lit "country", JStr (lit "UK"))] in
  let s := start initUserCollection in
  getUser (lit "15") (snd (createUser ada s)) =
    (OneUser (newUser 15 ada), snd (createUser ada s)).
Proof.
  intros ada s.
  exact (proj2 (proj2 (proj1 (create_then_find (fun _ => lit "invalid")) [] ada))
           (lit "15") eq_refl).
Defined.

(** C4. When the number that the segment is coerced to is the id of no
    record of the store, the get handler throws the 400 error whose
    message is "id ", the segment as it was requested, " not found",
    and the state is left as it was; GET /user/999 on the seed gives the
    message "id 999 not found". *)
Theorem get_unknown_id :
  forall (err_message : Joi.error -> jsstring),
    (forall (seg : jsstring) (s : state),
        (forall u, In u (Lowdb.users (db s)) -> parseInt seg <> Int (User.id u)) ->
        getUser seg s =
          (Failed {| Boom.statusCode := 400;
                     Boom.error := lit "Bad Request";
                     Boom.message := lit "id " ++ seg ++ lit " not found" |}, s))
    /\ dispatch err_message (GET_user (lit "999")) (start initUserCollection) =
         (Failed {| Boom.statusCode := 400;
                    Boom.error := lit "Bad Request";
                    Boom.message := lit "id 999 not found" |},
          start initUserCollection).
Proof.
  intros err_message. split; [|reflexivity].
  intros seg s H. unfold getUser, Lowdb.find.
  rewrite find_all_false; [reflexivity|].
  intros u Hu. specialize (H u Hu). unfold Lowdb.matches.
  destruct (parseInt seg) as [|z]; [reflexivity|].
  apply Z.eqb_neq. intros E. apply H. now rewrite E.
Qed.

Lemma get_unknown_id_witness :
  getUser (lit "42") (start initUserCollection) =
    (Failed (Boom.badRequest (lit "id 42 not found")), start initUserCollection).
Proof.
  apply (proj1 (get_unknown_id (fun _ => lit "invalid")) (lit "42")
           (start initUserCollection)).
  intros u Hu. simpl in Hu.
  repeat (destruct Hu as [<-|Hu]; [discriminate|]). contradiction.
Defined.

(** C5. When the coercion of the segment gives no integer (NaN), as it
    does for a segment whose first code unit is neither white space,
    nor a sign, nor a digit, the get handler returns a reply all the
    same: the 400 not-found error that names the segment, with the state
    left as it was. *)
Theorem get_non_numeric_id :
  (forall (seg : jsstring) (s : state),
      parseInt seg = NaN ->
      getUser seg s =
        (Failed {| Boom.statusCode := 400;
                   Boom.error := lit "Bad Request";
                   Boom.message := lit "id " ++ seg ++ lit " not found" |}, s))
  /\ (forall (c : N) (rest : jsstring),
        isWhiteSpace c = false -> c <> 45%N -> c <> 43%N -> digitValue c = None ->
        parseInt (c :: rest) = NaN).
Proof.
  split; [|exact parseInt_no_digit].
  intros seg s H. unfold getUser, Lowdb.find. rewrite H.
  rewrite find_all_false; reflexivity.
Qed.

Lemma get_non_numeric_id_witness :
  getUser (lit "abc") (start initUserCollection) =
    (Failed (Boom.badRequest (lit "id abc not found")), start initUserCollection).
Proof.
  exact (proj1 get_non_numeric_id (lit "abc") (start initUserCollection) eq_refl).
Defined.

(** C10. A segment that starts with decimal digits is coerced to the
    number that those digits write, whatever follows them. When that
    number is the id of a record of the store, the get handler replies
    with a stored record of that id and not with an error; in the states
    that the server reaches from its seed it is that very record. With
    the seed loaded, the segments "5abc" and "5.9" give the record of
    id 5. *)
Theorem get_reads_digit_prefix :
  forall (err_message : Joi.error -> jsstring),
    (forall (ds rest : jsstring),
        ds <> [] ->
        Forall (fun c => digitValue c <> None) ds ->
        match rest with [] => True | c :: _ => digitValue c = None end ->
        parseInt (ds ++ rest) = parseInt ds
        /\ exists n, parseInt ds = Int n /\ 0 <= n)
    /\ (forall (seg : jsstring) (s : state) (u : User.t),
          In u (Lowdb.users (db s)) ->
          parseInt seg = Int (User.id u) ->
          exists u', getUser seg s = (OneUser u', s)
                     /\ User.id u' = User.id u /\ In u' (Lowdb.users (db s)))
    /\ (forall (rs : list request) (seg : jsstring) (u : User.t),
          let s := snd (serve err_message rs (start initUserCollection)) in
          In u (Lowdb.users (db s)) ->
          parseInt seg = Int (User.id u) ->
          getUser seg s = (OneUser u, s))
    /\ (let violet := user 5 (lit "Violet") (lit "Hinzer") (lit "Bondo")
                           (lit "Democratic Republic of the Congo") in
        fst (getUser (lit "5abc") (start initUserCollection)) = OneUser violet
        /\ fst (getUser (lit "5.9") (start initUserCollection)) = OneUser violet).
Proof.
  intros err_message. split; [|split; [|split]].
  - intros ds rest Hne Hds Hrest.
    destruct ds as [|c ds]; [contradiction|].
    pose proof (Forall_inv Hds) as Hc. cbn beta in Hc.
    destruct (digitValue c) as [d|] eqn:E; [|contradiction].
    split.
    + change ((c :: ds) ++ rest) with (c :: (ds ++ rest)).
      rewrite !(parseInt_digit_first c d) by exact E.
      change (c :: (ds ++ rest)) with ((c :: ds) ++ rest).
      now rewrite digits_prefix.
    + rewrite (parseInt_digit_first c d) by exact E.
      cbn [digits]. rewrite E.
      destruct (digits_started (10 * 0 + d) ds) as [m [-> Hm]].
      { apply digitValue_nonneg in E. lia. }
      now exists m.
  - intros seg s u Hin Hseg.
    destruct (find_some_stored _ _ Hin) as [u' [F [Hid Hin']]].
    exists u'. unfold getUser, Lowdb.find. rewrite Hseg, F. auto.
  - intros rs seg u s Hin Hseg.
    unfold getUser, Lowdb.find. rewrite Hseg.
    rewrite find_stored; [reflexivity| |exact Hin].
    apply (serve_numbered err_message rs _ initUserCollection_numbered).
  - split; reflexivity.
Qed.

Lemma get_reads_digit_prefix_witness :
  parseInt (lit "5" ++ lit "abc") = parseInt (lit "5")
  /\ getUser (lit "14th") (start initUserCollection) =
       (OneUser (user 14 (lit "Bowie") (lit "Ranklin") (lit "Jinhe") (lit "China")),
        start initUserCollection).
Proof.
  split.
  - apply (proj1 (get_reads_digit_prefix (fun _ => lit "invalid")) (lit "5") (lit "abc")).
    + discriminate.
    + repeat constructor; discriminate.
    + reflexivity.
  - apply (proj1 (proj2 (proj2 (get_reads_digit_prefix (fun _ => lit "invalid")))) []
             (lit "14th")).
    + simpl. do 13 right. now left.
    + reflexivity.
Defined.

(** *** The validator *)

(** A string between the bounds of two chained rules passes, and no
    other string does. *)
Lemma string_between (lo hi : nat) (req : bool) (s : jsstring) :
  (0 < lo)%nat ->
  Joi.validate_string (Joi.mkString [Joi.Min lo; Joi.Max hi] req) (Some (JStr s)) = None
  <-> (lo <= List.length s <= hi)%nat.
Proof.
  intros Hlo. destruct s as [|c s].
  - simpl. split; [discriminate|lia].
  - cbn [Joi.validate_string Joi.rules Joi.check_rules Joi.check_rule].
    destruct (lo <=? List.length (c :: s))%nat eqn:L;
      [apply Nat.leb_le in L|apply Nat.leb_gt in L].
    + destruct (List.length (c :: s) <=? hi)%nat eqn:U;
        [apply Nat.leb_le in U|apply Nat.leb_gt in U].
      * split; [lia|reflexivity].
      * split; [discriminate|lia].
    + split; [discriminate|lia].
Qed.

(** The rule of one key, read off the schema. *)
Lemma field_passes_eq (k : String.string) (sch : Joi.string_schema) (p : object) :
  List.filter (fun child => jsstring_eqb (fst child) (lit k)) userPostRequestSchema
    = [(lit k, sch)] ->
  field_passes k p =
    match Joi.validate_string sch (get (lit k) p) with
    | None => true
    | Some _ => false
    end.
Proof.
  intros E. unfold field_passes. rewrite E. cbn [Joi.validate_children].
  now destruct (Joi.validate_string sch (get (lit k) p)).
Qed.

Lemma validate_children_schema (p : object) :
  Joi.validate_children userPostRequestSchema p = None
  <-> field_passes "first_name" p = true /\ field_passes "last_name" p = true
      /\ field_passes "city" p = true /\ field_passes "country" p = true.
Proof.
  rewrite (field_passes_eq "first_name"
             (Joi.string |> Joi.min 3 |> Joi.max 64 |> Joi.required) p eq_refl).
  rewrite (field_passes_eq "last_name"
             (Joi.string |> Joi.min 3 |> Joi.max 64) p eq_refl).
  rewrite (field_passes_eq "city"
             (Joi.string |> Joi.min 1 |> Joi.max 64) p eq_refl).
  rewrite (field_passes_eq "country"
             (Joi.string |> Joi.min 1 |> Joi.max 64 |> Joi.required) p eq_refl).
  unfold userPostRequestSchema. cbn [Joi.validate_children].
  repeat match goal with
         | |- context [Joi.validate_string ?sch ?v] =>
             destruct (Joi.validate_string sch v)
         end; intuition discriminate.
Qed.

(** [Object.keys] lists the keys of the object, each of them. *)
Lemma In_insert (x : Z * jsstring) (i : Z) (k : jsstring) (l : list (Z * jsstring)) :
  In x (insert i k l) <-> x = (i, k) \/ In x l.
Proof.
  induction l as [|[j k'] l IH]; cbn [insert].
  - simpl. intuition.
  - destruct (i <=? j); cbn [In]; [intuition|].
    rewrite IH. cbn [In]. intuition.
Qed.

Lemma In_indexKeys (i : Z) (k : jsstring) (ks : list jsstring) :
  In (i, k) (indexKeys ks) <-> In k ks /\ arrayIndex k = Some i.
Proof.
  induction ks as [|k' ks IH]; cbn [indexKeys In]; [tauto|].
  destruct (arrayIndex k') as [i'|] eqn:E.
  - rewrite In_insert, IH. split.
    + intros [[= -> ->]|[H1 H2]]; auto.
    + intros [[->|H1] H2]; [left; congruence|auto].
  - rewrite IH. split.
    + intros [H1 H2]. auto.
    + intros [[->|H1] H2]; [congruence|auto].
Qed.

Lemma In_Object_keys (k : jsstring) (o : object) :
  In k (Object_keys o) <-> In k (keys o).
Proof.
  unfold Object_keys. rewrite in_app_iff, in_map_iff, filter_In. split.
  - intros [[[i k'] [E H]]|[H _]]; [|exact H].
    cbn [snd] in E. subst k'. now apply In_indexKeys in H.
  - intros H. unfold isIndex. destruct (arrayIndex k) as [i|] eqn:E.
    + left. exists (i, k). split; [reflexivity|]. now apply In_indexKeys.
    + right. now split.
Qed.

(** What [find] returns is the first element that passes the test. *)
Lemma find_first {A : Type} (f : A -> bool) (l : list A) (x : A) :
  List.find f l = Some x ->
  exists pre post, l = pre ++ x :: post
                   /\ List.forallb (fun y => negb (f y)) pre = true /\ f x = true.
Proof.
  induction l as [|a l IH]; [discriminate|].
  cbn [List.find]. destruct (f a) eqn:E.
  - intros [= <-]. now exists [], l.
  - intros H. destruct (IH H) as (pre & post & -> & Hpre & Hx).
    exists (a :: pre), post. cbn [List.forallb app]. now rewrite E, Hpre.
Qed.

Lemma unprocessed_all_known (p : object) :
  Joi.unprocessed userPostRequestSchema p = None <-> all_known p = true.
Proof.
  unfold Joi.unprocessed, all_known. rewrite forallb_forall. split.
  - intros H k Hk. apply In_Object_keys in Hk.
    pose proof (find_none _ _ H k Hk) as F. cbn beta in F.
    now apply negb_false_iff in F.
  - intros H. apply find_all_false. intros k Hk. apply In_Object_keys in Hk.
    now rewrite (H k Hk).
Qed.


Lemma fields_ok_iff (p : object) :
  fields_ok p = true
  <-> field_passes "first_name" p = true /\ field_passes "last_name" p = true
      /\ field_passes "city" p = true /\ field_passes "country" p = true.
Proof.
  rewrite <- validate_children_schema. unfold fields_ok.
  destruct (Joi.validate_children userPostRequestSchema p); split;
    congruence.
Qed.

(** The validator lets a payload through exactly when the four rules
    pass and no other key is present. *)
Lemma accepted_iff (p : object) :
  accepted p = true <-> fields_ok p = true /\ all_known p = true.
Proof.
  rewrite <- unprocessed_all_known. unfold accepted, fields_ok, Joi.validate.
  destruct (Joi.validate_children userPostRequestSchema p).
  - split; [discriminate|intros [H _]; discriminate].
  - destruct (Joi.unprocessed userPostRequestSchema p); split; try tauto.
    + discriminate.
    + intros [_ H]. discriminate.
Qed.

Lemma field_first_name (p : object) (v : value) :
  get (lit "first_name") p = v ->
  field_passes "first_name" p =
    match Joi.validate_string (Joi.mkString [Joi.Min 3; Joi.Max 64] true) v with
    | None => true
    | Some _ => false
    end.
Proof.
  intros <-. now rewrite (field_passes_eq "first_name" _ p eq_refl).
Qed.

Lemma field_absent (k : String.string) (p : object) :
  get (lit k) p = None ->
  In k ["last_name"; "city"]%string ->
  field_passes k p = true.
Proof.
  intros H [<-|[<-|[]]].
  - rewrite (field_passes_eq "last_name" _ p eq_refl). now rewrite H.
  - rewrite (field_passes_eq "city" _ p eq_refl). now rewrite H.
Qed.

Lemma field_country_absent (p : object) :
  get (lit "country") p = None -> field_passes "country" p = false.
Proof.
  intros H. rewrite (field_passes_eq "country" _ p eq_refl). now rewrite H.
Qed.

Lemma string_too_short (lo hi : nat) (req : bool) (s : jsstring) :
  s <> [] -> (List.length s < lo)%nat ->
  Joi.validate_string (Joi.mkString [Joi.Min lo; Joi.Max hi] req) (Some (JStr s))
    = Some (Joi.string_min lo).
Proof.
  intros Hs H. destruct s as [|c s]; [contradiction|].
  cbn [Joi.validate_string Joi.rules Joi.check_rules Joi.check_rule].
  apply Nat.leb_gt in H. now rewrite H.
Qed.

Lemma string_too_long (lo hi : nat) (req : bool) (s : jsstring) :
  (lo <= List.length s)%nat -> (hi < List.length s)%nat ->
  Joi.validate_string (Joi.mkString [Joi.Min lo; Joi.Max hi] req) (Some (JStr s))
    = Some (Joi.string_max hi).
Proof.
  intros L U. destruct s as [|c s]; [simpl in U; lia|].
  cbn [Joi.validate_string Joi.rules Joi.check_rules Joi.check_rule].
  apply Nat.leb_le in L. apply Nat.leb_gt in U. now rewrite L, U.
Qed.

(** The first key of the schema is the first to be reported. *)
Lemma first_name_reported (p : object) (v : value) (c : Joi.code) :
  get (lit "first_name") p = v ->
  Joi.validate_string (Joi.mkString [Joi.Min 3; Joi.Max 64] true) v = Some c ->
  Joi.validate userPostRequestSchema p = inl (Joi.mkError (lit "first_name") c).
Proof.
  intros <- H. unfold Joi.validate, userPostRequestSchema.
  cbn [Joi.validate_children].
  change (Joi.required (Joi.max 64 (Joi.min 3 Joi.string)))
    with (Joi.mkString [Joi.Min 3; Joi.Max 64] true).
  now rewrite H.
Qed.

Lemma find_unknown (p : object) (k : jsstring) :
  In k (keys p) -> Joi.known userPostRequestSchema k = false ->
  exists k', Joi.unprocessed userPostRequestSchema p = Some k'
             /\ In k' (keys p) /\ Joi.known userPostRequestSchema k' = false.
Proof.
  intros Hin Hk. unfold Joi.unprocessed.
  destruct (List.find _ (Object_keys p)) as [k'|] eqn:E.
  - exists k'. apply find_some in E as [Hin' Hk'].
    apply In_Object_keys in Hin'.
    repeat split; auto. now apply negb_true_iff.
  - apply In_Object_keys in Hin.
    pose proof (find_none _ _ E k Hin) as H. cbn beta in H.
    rewrite Hk in H. discriminate.
Qed.

(** The key that the validator names is the first key, in the order of
    [Object.keys], that the schema does not name. *)
Lemma unprocessed_first (p : object) (k : jsstring) :
  Joi.unprocessed userPostRequestSchema p = Some k ->
  exists pre post, Object_keys p = pre ++ k :: post
                   /\ List.forallb (Joi.known userPostRequestSchema) pre = true
                   /\ Joi.known userPostRequestSchema k = false.
Proof.
  intros H. apply find_first in H as (pre & post & E & Hpre & Hk).
  exists pre, post. split; [exact E|]. split; [|now apply negb_true_iff].
  rewrite forallb_forall in *. intros x Hx. specialize (Hpre x Hx).
  cbn beta in Hpre. now destruct (Joi.known userPostRequestSchema x).
Qed.

(** C6. With the other rules passing and no other key present, a
    payload is accepted exactly when its first_name has from 3 to 64 code
    units: lengths 3 and 64 are accepted, length 2 is refused for being
    too short and length 65 for being too long. A payload without
    country is refused. A payload without last_name and without city is
    accepted when first_name and country pass and no other key is
    present. *)
Theorem validation_boundaries :
  (forall (p : object) (fn : jsstring),
      get (lit "first_name") p = Some (JStr fn) ->
      field_passes "last_name" p = true ->
      field_passes "city" p = true ->
      field_passes "country" p = true ->
      all_known p = true ->
      (accepted p = true <-> (3 <= List.length fn <= 64)%nat)
      /\ (List.length fn = 3%nat \/ List.length fn = 64%nat ->
          Joi.validate userPostRequestSchema p = inr p)
      /\ (List.length fn = 2%nat ->
          Joi.validate userPostRequestSchema p =
            inl (Joi.mkError (lit "first_name") (Joi.string_min 3)))
      /\ (List.length fn = 65%nat ->
          Joi.validate userPostRequestSchema p =
            inl (Joi.mkError (lit "first_name") (Joi.string_max 64))))
  /\ (forall (p : object),
        get (lit "country") p = None ->
        exists e, Joi.validate userPostRequestSchema p = inl e)
  /\ (forall (p : object),
        get (lit "last_name") p = None ->
        get (lit "city") p = None ->
        field_passes "first_name" p = true ->
        field_passes "country" p = true ->
        all_known p = true ->
        Joi.validate userPostRequestSchema p = inr p).
Proof.
  split; [|split].
  - intros p fn Hfn Hl Hc Hco Hk.
    assert (A : accepted p = true <-> (3 <= List.length fn <= 64)%nat).
    { rewrite accepted_iff, fields_ok_iff, (field_first_name p _ Hfn).
      rewrite <- (string_between 3 64 true fn) by lia.
      destruct (Joi.validate_string _ (Some (JStr fn))); split; try tauto.
      - intros [[H _] _]. discriminate.
      - discriminate. }
    split; [exact A|]. split; [|split].
    + intros H. apply accepted_true, A. lia.
    + intros H. apply (first_name_reported p _ _ Hfn).
      apply string_too_short; [|lia]. intros ->. discriminate.
    + intros H. apply (first_name_reported p _ _ Hfn).
      apply string_too_long; lia.
  - intros p H. apply accepted_false.
    destruct (accepted p) eqn:A; [|reflexivity].
    apply accepted_iff in A as [A _]. apply fields_ok_iff in A as (_ & _ & _ & A).
    now rewrite (field_country_absent p H) in A.
  - intros p Hl Hc Hf Hco Hk. apply accepted_true, accepted_iff.
    split; [|exact Hk]. apply fields_ok_iff.
    repeat split; auto; apply field_absent; simpl; auto.
Qed.

Lemma validation_boundaries_witness :
  let p := [(lit "first_name", JStr (lit "Ada")); (lit "country", JStr (lit "UK"))] in
  Joi.validate userPostRequestSchema p = inr p
  /\ (exists e, Joi.validate userPostRequestSchema [(lit "first_name", JStr (lit "Ada"))]
                  = inl e).
Proof.
  intros p. split.
  - apply (proj1 (proj2 (proj1 validation_boundaries p (lit "Ada")
                           eq_refl eq_refl eq_refl eq_refl eq_refl))).
    now left.
  - apply (proj1 (proj2 validation_boundaries)). reflexivity.
Defined.

(** C2 as the specification states it fails: a payload whose four
    known keys pass and that carries one more key is refused. *)
Lemma unknown_key_ignored_counterexample :
  ~ (forall p : object,
        (exists k, In k (keys p) /\ Joi.known userPostRequestSchema k = false) ->
        fields_ok p = true ->
        exists v, Joi.validate userPostRequestSchema p = inr v).
Proof.
  intros H.
  destruct (H [ (lit "first_name", JStr (lit "Ada"));
                (lit "country", JStr (lit "UK"));
                (lit "nickname", JStr (lit "ada")) ]) as [v Hv].
  - exists (lit "nickname"). split; [simpl; auto|reflexivity].
  - reflexivity.
  - discriminate.
Qed.

(** C2, amended. A payload in which a key outside first_name,
    last_name, city and country is present is refused by the validator;
    when the four known keys pass their rules the error is the one of
    an unknown key, raised for the first such key of the payload in the
    order of [Object.keys] (the keys that are array indices in
    ascending order, then the others in the order of the payload):
    every key ahead of it in that order is one of the four. Validation
    succeeds exactly when the four known keys pass and no other key is
    present. *)
Theorem unknown_key_refused :
  (forall (p : object) (k : jsstring),
      In k (keys p) ->
      Joi.known userPostRequestSchema k = false ->
      (exists e, Joi.validate userPostRequestSchema p = inl e)
      /\ (fields_ok p = true ->
          exists k' pre post,
            Joi.validate userPostRequestSchema p =
              inl (Joi.mkError k' Joi.object_unknown)
            /\ Object_keys p = pre ++ k' :: post
            /\ List.forallb (Joi.known userPostRequestSchema) pre = true
            /\ Joi.known userPostRequestSchema k' = false
            /\ In k' (keys p)))
  /\ (forall (p : object),
        Joi.validate userPostRequestSchema p = inr p
        <-> fields_ok p = true /\ all_known p = true).
Proof.
  split.
  - intros p k Hin Hk.
    destruct (find_unknown p k Hin Hk) as [k' [U [Hin' Hk']]].
    split.
    + unfold Joi.validate. rewrite U.
      destruct (Joi.validate_children userPostRequestSchema p) as [e|];
        eexists; reflexivity.
    + intros F. destruct (unprocessed_first p k' U) as (pre & post & E & Hpre & _).
      exists k', pre, post. unfold fields_ok in F. unfold Joi.validate. rewrite U.
      destruct (Joi.validate_children userPostRequestSchema p); [discriminate|].
      auto.
  - intros p. rewrite <- accepted_iff. split.
    + intros H. unfold accepted. now rewrite H.
    + apply accepted_true.
Qed.

Lemma unknown_key_refused_witness :
  exists k' pre post,
    Joi.validate userPostRequestSchema
      [ (lit "first_name", JStr (lit "Ada"));
        (lit "country", JStr (lit "UK"));
        (lit "zzz", JStr (lit "last"));
        (lit "7", JStr (lit "seven")) ] = inl (Joi.mkError k' Joi.object_unknown)
    /\ Object_keys
         [ (lit "first_name", JStr (lit "Ada"));
           (lit "country", JStr (lit "UK"));
           (lit "zzz", JStr (lit "last"));
           (lit "7", JStr (lit "seven")) ] = pre ++ k' :: post
    /\ List.forallb (Joi.known userPostRequestSchema) pre = true
    /\ Joi.known userPostRequestSchema k' = false
    /\ In k' (keys [ (lit "first_name", JStr (lit "Ada"));
                     (lit "country", JStr (lit "UK"));
                     (lit "zzz", JStr (lit "last"));
                     (lit "7", JStr (lit "seven")) ]).
Proof.
  refine (proj2 (proj1 unknown_key_refused
                   [ (lit "first_name", JStr (lit "Ada"));
                     (lit "country", JStr (lit "UK"));
                     (lit "zzz", JStr (lit "last"));
                     (lit "7", JStr (lit "seven")) ]
                   (lit "zzz") _ _) _).
  - simpl. right. right. left. reflexivity.
  - reflexivity.
  - reflexivity.
Defined.

(** An unknown key that is an array index is named ahead of one that
    is not, wherever it stands in the payload. *)
Lemma unknown_index_key_named_first :
  Joi.validate userPostRequestSchema
    [ (lit "first_name", JStr (lit "Ada"));
      (lit "country", JStr (lit "UK"));
      (lit "zzz", JStr (lit "last"));
      (lit "7", JStr (lit "seven")) ]
  = inl (Joi.mkError (lit "7") Joi.object_unknown).
Proof. reflexivity. Qed.

(* ===================================================================== *)
(** ** Further properties of the routes *)
(* ===================================================================== *)

(** *** A refused POST *)

Lemma state_ext (s1 s2 : state) :
  Lowdb.users (db s1) = Lowdb.users (db s2) -> uuid s1 = uuid s2 -> s1 = s2.
Proof.
  destruct s1 as [[l1] n1], s2 as [[l2] n2]. simpl. now intros -> ->.
Qed.

(** X1. When the validator refuses the payload, the handler of the
    route does not run: the reply is the 400 error that [failAction]
    builds from the text of the validator's error, and the state is
    left as it was. Refused POSTs and reads leave no trace at all: two
    runs from the same state in which the same payloads were accepted,
    in the same order, end in the same state. *)
Theorem refused_post_leaves_no_trace :
  forall (err_message : Joi.error -> jsstring) (s : state),
    (forall (payload : object) (err : Joi.error),
        Joi.validate userPostRequestSchema payload = inl err ->
        postUser err_message payload s =
          (Failed {| Boom.statusCode := 400;
                     Boom.error := lit "Bad Request";
                     Boom.message := err_message err |}, s))
    /\ (forall (rs rs' : list request),
          accepted_payloads rs = accepted_payloads rs' ->
          snd (serve err_message rs s) = snd (serve err_message rs' s)).
Proof.
  intros err_message s. split.
  - intros payload err H. unfold postUser. now rewrite H.
  - intros rs rs' H. apply state_ext.
    + now rewrite !serve_users, H.
    + now rewrite !serve_uuid, H.
Qed.

Lemma refused_post_leaves_no_trace_witness :
  let al := [(lit "first_name", JStr (lit "Al")); (lit "country", JStr (lit "US"))] in
  let ada := [(lit "first_name", JStr (lit "Ada")); (lit "country", JStr (lit "UK"))] in
  snd (serve (fun _ => lit "invalid") [POST_user al; POST_user ada; GET_users]
         (start initUserCollection)) =
  snd (serve (fun _ => lit "invalid") [POST_user ada] (start initUserCollection)).
Proof.
  intros al ada.
  exact (proj2 (refused_post_leaves_no_trace (fun _ => lit "invalid")
                  (start initUserCollection))
           [POST_user al; POST_user ada; GET_users] [POST_user ada] eq_refl).
Defined.

(** *** The counter and the length of the collection *)

(** X2. After any run from any seed the counter is the length of the
    collection plus one, and the collection has grown by one record for
    each create that replied with an id. *)
Theorem counter_tracks_length :
  forall (err_message : Joi.error -> jsstring) (seed : list User.t) (rs : list request),
    let run := serve err_message rs (start seed) in
    uuid (snd run) = Z.of_nat (List.length (Lowdb.users (db (snd run)))) + 1
    /\ List.length (Lowdb.users (db (snd run))) =
         (List.length seed + List.length (created_ids (fst run)))%nat.
Proof.
  intros err_message seed rs run. unfold run.
  rewrite serve_uuid, serve_users, serve_created.
  rewrite length_app, length_map, records_from_length.
  unfold start. cbn [db uuid Lowdb.defaults Lowdb.users]. split; lia.
Qed.

(** *** Seeds numbered from 1 *)

Lemma numbered_nth (first : nat) (l : list User.t) :
  List.map User.id l = List.map Z.of_nat (seq first (List.length l)) ->
  forall i u, nth_error l i = Some u -> User.id u = Z.of_nat (first + i).
Proof.
  revert first. induction l as [|a l IH]; intros first H i u Hi.
  - destruct i; discriminate.
  - cbn [List.map List.length seq] in H. injection H as Ha Hl.
    destruct i as [|i]; cbn [nth_error] in Hi.
    + injection Hi as <-. rewrite Ha. f_equal. lia.
    + rewrite (IH (S first) Hl i u Hi). f_equal. lia.
Qed.

Lemma numbered_NoDup (l : list User.t) :
  List.map User.id l = List.map Z.of_nat (seq 1 (List.length l)) ->
  NoDup (List.map User.id l).
Proof.
  intros ->. apply Injective_map_NoDup; [|apply seq_NoDup].
  intros a b H. lia.
Qed.

Lemma numbered_range (l : list User.t) (u : User.t) :
  List.map User.id l = List.map Z.of_nat (seq 1 (List.length l)) ->
  In u l -> 1 <= User.id u <= Z.of_nat (List.length l).
Proof.
  intros H Hin. apply (in_map User.id) in Hin. rewrite H in Hin.
  apply in_map_iff in Hin as [k [<- Hk]]. apply in_seq in Hk. lia.
Qed.

Lemma records_from_nat_ids (a : nat) (ps : list object) :
  List.map User.id (records_from (Z.of_nat a + 1) ps) =
    List.map Z.of_nat (seq (1 + a) (List.length ps)).
Proof.
  revert a. induction ps as [|p ps IH]; intros a; [reflexivity|].
  cbn [records_from List.map List.length seq newUser User.id]. f_equal; [lia|].
  replace (Z.of_nat a + 1 + 1) with (Z.of_nat (S a) + 1) by lia.
  apply IH.
Qed.

(** The ids of a run from a seed numbered from 1. *)
Lemma serve_numbered_from_1 (err_message : Joi.error -> jsstring)
      (seed : list User.t) (rs : list request) :
  List.map User.id seed = List.map Z.of_nat (seq 1 (List.length seed)) ->
  let l := Lowdb.users (db (snd (serve err_message rs (start seed)))) in
  List.map User.id l = List.map Z.of_nat (seq 1 (List.length l)).
Proof.
  intros H l. unfold l. rewrite serve_users.
  cbn [start db uuid Lowdb.defaults Lowdb.users].
  rewrite map_app, length_app, seq_app, map_app, records_from_length.
  now rewrite <- H, records_from_nat_ids.
Qed.

(** X3. When the ids of the seed are 1, 2, ..., S in this order, as
    they are in db/users.json, the ids of the collection after any run
    are 1, 2, ..., n in this order, n being its length: the record at
    position i (from 0) has id i + 1. *)
Theorem ids_count_from_one :
  forall (err_message : Joi.error -> jsstring) (seed : list User.t) (rs : list request),
    List.map User.id seed = List.map Z.of_nat (seq 1 (List.length seed)) ->
    let l := Lowdb.users (db (snd (serve err_message rs (start seed)))) in
    List.map User.id l = List.map Z.of_nat (seq 1 (List.length l))
    /\ (forall i u, nth_error l i = Some u -> User.id u = Z.of_nat i + 1).
Proof.
  intros err_message seed rs H l.
  pose proof (serve_numbered_from_1 err_message seed rs H) as Hl. cbn zeta in Hl.
  split; [exact Hl|].
  intros i u Hi. rewrite (numbered_nth 1 _ Hl i u Hi). lia.
Qed.

Lemma ids_count_from_one_witness :
  List.map User.id
    (Lowdb.users
       (db (snd (serve (fun _ => lit "invalid")
                   [POST_user [(lit "first_name", JStr (lit "Ada"));
                               (lit "country", JStr (lit "UK"))]]
                   (start initUserCollection))))) =
  List.map Z.of_nat (seq 1 15).
Proof.
  exact (proj1 (ids_count_from_one (fun _ => lit "invalid") initUserCollection
                  [POST_user [(lit "first_name", JStr (lit "Ada"));
                              (lit "country", JStr (lit "UK"))]] eq_refl)).
Defined.

(** X4. In a store whose ids are 1, ..., n (any run from a seed
    numbered from 1), GET /user/{id} succeeds exactly for the segments
    that are coerced to a number from 1 to n, and replies with the
    record at position id - 1; for every other segment (NaN, zero, a
    negative number, a number above n) it throws the 400 not-found
    error. *)
Theorem get_succeeds_from_1_to_n :
  forall (err_message : Joi.error -> jsstring) (seed : list User.t) (rs : list request)
         (seg : jsstring),
    List.map User.id seed = List.map Z.of_nat (seq 1 (List.length seed)) ->
    let s := snd (serve err_message rs (start seed)) in
    let n := Z.of_nat (List.length (Lowdb.users (db s))) in
    match parseInt seg with
    | Int z =>
        if (1 <=? z) && (z <=? n)
        then exists u, nth_error (Lowdb.users (db s)) (Z.to_nat (z - 1)) = Some u
                       /\ getUser seg s = (OneUser u, s)
        else getUser seg s =
               (Failed (Boom.badRequest (lit "id " ++ seg ++ lit " not found")), s)
    | NaN => getUser seg s =
               (Failed (Boom.badRequest (lit "id " ++ seg ++ lit " not found")), s)
    end.
Proof.
  intros err_message seed rs seg H s n.
  pose proof (serve_numbered_from_1 err_message seed rs H) as Hl. cbn zeta in Hl.
  fold s in Hl. unfold getUser, Lowdb.find.
  destruct (parseInt seg) as [|z]; [now rewrite find_all_false|].
  destruct ((1 <=? z) && (z <=? n)) eqn:R.
  - apply andb_prop in R as [L U]. apply Z.leb_le in L. apply Z.leb_le in U.
    destruct (nth_error (Lowdb.users (db s)) (Z.to_nat (z - 1))) as [u|] eqn:E.
    + exists u. split; [reflexivity|].
      assert (Hid : User.id u = z).
      { rewrite (numbered_nth 1 _ Hl _ u E). lia. }
      rewrite <- Hid, find_stored; [reflexivity| |].
      * now apply numbered_NoDup.
      * eapply nth_error_In. exact E.
    + apply nth_error_None in E. unfold n in U. lia.
  - rewrite find_all_false; [reflexivity|].
    intros u Hu. simpl. apply Z.eqb_neq. intros Hid.
    pose proof (numbered_range _ u Hl Hu) as B. fold n in B.
    rewrite Hid in B.
    assert (R' : (1 <=? z) && (z <=? n) = true).
    { apply andb_true_intro. split; apply Z.leb_le; lia. }
    congruence.
Qed.

Lemma get_succeeds_from_1_to_n_witness :
  exists u, nth_error initUserCollection 6 = Some u
            /\ getUser (lit "7") (start initUserCollection)
               = (OneUser u, start initUserCollection).
Proof.
  exact (get_succeeds_from_1_to_n (fun _ => lit "invalid") initUserCollection []
           (lit "7") eq_refl).
Defined.

(** *** Seeds that are not numbered from 1 *)

(** X5. The counter starts from the length of the seed and does not
    look at the ids of the seed, and a lookup returns the earliest
    record of the id. So when a record of the seed carries the id
    S + 1, the first create replies with that same id, and the lookup
    of the id it replied with finds a record of the seed, ahead of the
    record just created. *)
Theorem seed_id_shadows_created :
  forall (seed : list User.t) (u : User.t) (payload : object),
    In u seed ->
    User.id u = Z.of_nat (List.length seed) + 1 ->
    let s' := snd (createUser payload (start seed)) in
    fst (createUser payload (start seed)) =
      Created {| Created.message := lit "user created"; Created.id := User.id u |}
    /\ exists u', Lowdb.find (Int (User.id u)) (db s') = Some u'
                  /\ In u' seed /\ User.id u' = User.id u
                  /\ Lowdb.find (Int (User.id u)) (db (start seed)) = Some u'.
Proof.
  intros seed u payload Hin Hid s'. split.
  - rewrite createUser_eq. cbn [fst start uuid]. now rewrite Hid.
  - destruct (find_some_stored seed u Hin) as [u' [F [Hid' Hin']]].
    exists u'. unfold s'. rewrite createUser_eq. unfold Lowdb.find.
    cbn [snd db start Lowdb.defaults Lowdb.users]. rewrite find_app, F. auto.
Qed.

Lemma seed_id_shadows_created_witness :
  let old := user 2 (lit "Torre") (lit "Burnell") (lit "Shiqiao") (lit "China") in
  let ada := [(lit "first_name", JStr (lit "Ada")); (lit "country", JStr (lit "UK"))] in
  fst (createUser ada (start [old])) =
    Created {| Created.message := lit "user created"; Created.id := 2 |}
  /\ fst (getUser (lit "2") (snd (createUser ada (start [old])))) = OneUser old.
Proof.
  intros old ada. split.
  - exact (proj1 (seed_id_shadows_created [old] old ada (or_introl eq_refl) eq_refl)).
  - reflexivity.
Defined.

(** *** Numerals *)

Lemma digitValue_of_digit (d : Z) :
  0 <= d < 10 -> digitValue (Z.to_N (48 + d)) = Some d.
Proof.
  intros H. unfold digitValue.
  assert (L : (48 <=? Z.to_N (48 + d))%N = true) by (apply N.leb_le; lia).
  assert (U : (Z.to_N (48 + d) <=? 57)%N = true) by (apply N.leb_le; lia).
  rewrite L, U. cbn [andb]. f_equal. lia.
Qed.

Lemma digits_first (c : N) (d : Z) (s : jsstring) :
  digitValue c = Some d -> digits None (c :: s) = digits (Some d) s.
Proof.
  intros H. cbn [digits]. rewrite H. f_equal.
Qed.

Lemma digits_next (a : Z) (c : N) (d : Z) (s : jsstring) :
  digitValue c = Some d -> digits (Some a) (c :: s) = digits (Some (10 * a + d)) s.
Proof.
  intros H. cbn [digits]. now rewrite H.
Qed.

Lemma toString_aux_step (f : nat) (n : Z) (acc : jsstring) :
  toString_aux (S f) n acc =
    if n <? 10 then Z.to_N (48 + n mod 10) :: acc
    else toString_aux f (n / 10) (Z.to_N (48 + n mod 10) :: acc).
Proof. reflexivity. Qed.

(** Reading the numeral that was written for [n] ahead of [acc] is
    reading [acc] with [n] as the value so far. *)
Lemma digits_toString_aux (fuel : nat) (n : Z) (acc : jsstring) :
  0 <= n < 2 ^ Z.of_nat (S fuel) ->
  digits None (toString_aux (S fuel) n acc) = digits (Some n) acc.
Proof.
  revert n acc. induction fuel as [|f IH]; intros n acc H.
  - change (2 ^ Z.of_nat 1) with 2 in H. rewrite toString_aux_step.
    assert (E : (n <? 10) = true) by (apply Z.ltb_lt; lia). rewrite E.
    rewrite Z.mod_small by lia.
    now rewrite (digits_first _ n) by (apply digitValue_of_digit; lia).
  - rewrite toString_aux_step. destruct (n <? 10) eqn:E.
    + apply Z.ltb_lt in E.
      rewrite Z.mod_small by lia.
      now rewrite (digits_first _ n) by (apply digitValue_of_digit; lia).
    + apply Z.ltb_ge in E. rewrite IH.
      * rewrite (digits_next _ _ (n mod 10))
          by (apply digitValue_of_digit, Z.mod_pos_bound; lia).
        f_equal. f_equal. pose proof (Z.div_mod n 10). lia.
      * rewrite (Nat2Z.inj_succ (S f)), Z.pow_succ_r in H by lia.
        split; [apply Z.div_pos; lia|].
        apply Z.div_lt_upper_bound; lia.
Qed.

Lemma toString_aux_head (fuel : nat) (n : Z) (acc : jsstring) :
  0 <= n ->
  exists c rest d, toString_aux (S fuel) n acc = c :: rest /\ digitValue c = Some d.
Proof.
  revert n acc. induction fuel as [|f IH]; intros n acc H.
  - cbn [toString_aux]. exists (Z.to_N (48 + n mod 10)), acc, (n mod 10).
    split; [now destruct (n <? 10)|].
    apply digitValue_of_digit, Z.mod_pos_bound. lia.
  - rewrite toString_aux_step. destruct (n <? 10).
    + exists (Z.to_N (48 + n mod 10)), acc, (n mod 10). split; [reflexivity|].
      apply digitValue_of_digit, Z.mod_pos_bound. lia.
    + apply IH. apply Z.div_pos; lia.
Qed.

Lemma fuel_enough (n : Z) : 0 <= n -> 0 <= n < 2 ^ Z.of_nat (S (Z.to_nat (Z.log2 n))).
Proof.
  intros H. split; [exact H|].
  rewrite Nat2Z.inj_succ, Z2Nat.id by apply Z.log2_nonneg.
  destruct (Z.eq_dec n 0) as [->|Hn]; [reflexivity|].
  apply Z.log2_spec. lia.
Qed.

Lemma parseInt_numeral_nonneg (n : Z) :
  0 <= n -> parseInt (toString n) = Int n.
Proof.
  intros H. unfold toString.
  assert (E : (n <? 0) = false) by (apply Z.ltb_ge; lia). rewrite E.
  destruct (toString_aux_head (Z.to_nat (Z.log2 n)) n [] H) as (c & rest & d & Hs & Hc).
  pose proof (digits_toString_aux _ n [] (fuel_enough n H)) as D.
  rewrite Hs in *. rewrite (parseInt_digit_first c d rest Hc), D. reflexivity.
Qed.

(** A leading hyphen-minus negates what the rest is read as; a
    leading plus is dropped. *)
Lemma parseInt_minus (s : jsstring) :
  parseInt (45%N :: s) =
    match digits None s with
    | None => NaN
    | Some m => Int (-1 * m)
    end.
Proof. reflexivity. Qed.

Lemma parseInt_plus (s : jsstring) :
  parseInt (43%N :: s) =
    match digits None s with
    | None => NaN
    | Some m => Int (1 * m)
    end.
Proof. reflexivity. Qed.

Lemma parseInt_numeral (n : Z) : parseInt (toString n) = Int n.
Proof.
  destruct (Z.ltb_spec n 0) as [Hn|Hn]; [|now apply parseInt_numeral_nonneg].
  unfold toString. assert (E : (n <? 0) = true) by (apply Z.ltb_lt; lia). rewrite E.
  assert (Hm : 0 <= - n) by lia.
  pose proof (digits_toString_aux _ (- n) [] (fuel_enough (- n) Hm)) as D.
  rewrite parseInt_minus, D. cbn [digits]. f_equal. lia.
Qed.

(** X6. For every safe integer n (below 2^53 in absolute value), on
    which JavaScript writes plain digits and reads them exactly,
    writing n as a decimal numeral and coercing the numeral with
    [parseInt(., 10)] gives n back, for negative n too. The numeral of
    a non-negative n starts with a digit, that of a negative n with a
    hyphen-minus. *)
Theorem parseInt_toString :
  forall n : Z,
    - 2 ^ 53 < n < 2 ^ 53 ->
    parseInt (toString n) = Int n
    /\ (0 <= n -> exists c rest d, toString n = c :: rest /\ digitValue c = Some d)
    /\ (n < 0 -> exists rest, toString n = 45%N :: rest).
Proof.
  intros n _. split; [apply parseInt_numeral|]. split.
  - intros Hn. unfold toString.
    assert (E : (n <? 0) = false) by (apply Z.ltb_ge; lia). rewrite E.
    now apply toString_aux_head.
  - intros Hn. unfold toString.
    assert (E : (n <? 0) = true) by (apply Z.ltb_lt; lia). rewrite E.
    eexists. reflexivity.
Qed.

Lemma parseInt_toString_witness :
  parseInt (toString 9007199254740991) = Int 9007199254740991
  /\ parseInt (toString (-15)) = Int (-15).
Proof.
  split.
  - apply (proj1 (parseInt_toString 9007199254740991 ltac:(lia))).
  - apply (proj1 (parseInt_toString (-15) ltac:(lia))).
Defined.

(** X7. For a seed whose ids are distinct and at most its length (the
    empty seed, or db/users.json), in every state that the server
    reaches, a POST that passes validation followed by a GET of the
    decimal numeral of the id it replied with gives the record that the
    POST created. *)
Theorem post_then_get_numeral :
  forall (err_message : Joi.error -> jsstring) (seed : list User.t) (rs : list request)
         (payload : object),
    NoDup (List.map User.id seed) ->
    Forall (fun i => i <= Z.of_nat (List.length seed)) (List.map User.id seed) ->
    accepted payload = true ->
    let s := snd (serve err_message rs (start seed)) in
    let n := uuid s in
    fst (serve err_message [POST_user payload; GET_user (toString n)] s) =
      [ Created {| Created.message := lit "user created"; Created.id := n |};
        OneUser {| User.id := n;
                   User.first_name := get (lit "first_name") payload;
                   User.last_name := get (lit "last_name") payload;
                   User.city := get (lit "city") payload;
                   User.country := get (lit "country") payload |} ].
Proof.
  intros err_message seed rs payload ND B A s n.
  assert (Hs : numbered s) by (apply serve_numbered, start_numbered; assumption).
  pose proof (find_created payload s Hs) as F.
  rewrite createUser_eq in F. cbn [snd] in F.
  subst n. cbn [serve dispatch].
  rewrite (postUser_accepted err_message payload s A), createUser_eq.
  unfold getUser. rewrite parseInt_numeral, F.
  reflexivity.
Qed.

Lemma post_then_get_numeral_witness :
  let ada := [(lit "first_name", JStr (lit "Ada")); (lit "country", JStr (lit "UK"))] in
  fst (serve (fun _ => lit "invalid") [POST_user ada; GET_user (lit "1")] (start [])) =
    [ Created {| Created.message := lit "user created"; Created.id := 1 |};
      OneUser (newUser 1 ada) ].
Proof.
  intros ada.
  exact (post_then_get_numeral (fun _ => lit "invalid") [] [] ada
           (NoDup_nil Z) (Forall_nil _) eq_refl).
Defined.

(** *** White space and signs in the segment *)

Lemma parseInt_skip (c : N) (s : jsstring) :
  isWhiteSpace c = true -> parseInt (c :: s) = parseInt s.
Proof.
  intros H. unfold parseInt. cbn [trimStart]. now rewrite H.
Qed.

Lemma sign_no_digit (c : N) : c = 43%N \/ c = 45%N -> digitValue c = None.
Proof. now intros [->| ->]. Qed.

(** X8. The coercion of the segment skips any white space in front of
    it; one sign in front of the digits is read, a plus changing
    nothing and a hyphen-minus negating the number; a second sign makes
    the segment NaN. *)
Theorem parseInt_space_and_sign :
  (forall (ws s : jsstring),
      Forall (fun c => isWhiteSpace c = true) ws ->
      parseInt (ws ++ s) = parseInt s)
  /\ (forall (c : N) (d : Z) (s : jsstring),
        digitValue c = Some d ->
        exists m, parseInt (c :: s) = Int m /\ 0 <= m
                  /\ parseInt (43%N :: c :: s) = Int m
                  /\ parseInt (45%N :: c :: s) = Int (- m))
  /\ (forall (c1 c2 : N) (s : jsstring),
        c1 = 43%N \/ c1 = 45%N -> c2 = 43%N \/ c2 = 45%N ->
        parseInt (c1 :: c2 :: s) = NaN).
Proof.
  split; [|split].
  - intros ws s H. induction H as [|c ws Hc _ IH]; [reflexivity|].
    cbn [app]. now rewrite parseInt_skip.
  - intros c d s H.
    rewrite parseInt_plus, parseInt_minus, (parseInt_digit_first c d s H).
    rewrite (digits_first c d s H).
    destruct (digits_started d s (digitValue_nonneg c d H)) as [m [-> Hm]].
    exists m. repeat split; auto; f_equal; lia.
  - intros c1 c2 s H1 H2. apply sign_no_digit in H2.
    destruct H1 as [-> | ->]; [rewrite parseInt_plus|rewrite parseInt_minus];
      cbn [digits]; now rewrite H2.
Qed.

Lemma parseInt_space_and_sign_witness :
  parseInt (lit "  " ++ lit "7") = parseInt (lit "7")
  /\ parseInt (lit "+-3") = NaN.
Proof.
  split.
  - apply (proj1 parseInt_space_and_sign (lit "  ") (lit "7")).
    repeat constructor.
  - apply (proj2 (proj2 parseInt_space_and_sign) 43%N 45%N (lit "3")); auto.
Defined.

(** *** Which error the validator reports *)

(** X9. The validator reports one error, by this order of
    precedence. First comes the first of first_name, last_name, city,
    country whose rule fails, whatever else is wrong with the payload,
    with the code that this rule gives on the value of the key:
    any.required for a required key that is undefined, string.base for
    a value that is not a string, string.empty for the empty string,
    string.min for a string shorter than the minimum and string.max for
    one longer than the maximum. When none of the four fails, the error
    is object.unknown for the first key, in the order of [Object.keys],
    that the schema does not name. When there is none either, the
    payload passes unchanged. *)
Theorem validator_reports_first_failure :
  (forall (p : object),
      match first_failing p with
      | Some k =>
          exists sch c,
            rule_of k = Some sch
            /\ Joi.validate_string sch (get (lit k) p) = Some c
            /\ Joi.validate userPostRequestSchema p = inl (Joi.mkError (lit k) c)
      | None =>
          match Joi.unprocessed userPostRequestSchema p with
          | Some k =>
              Joi.validate userPostRequestSchema p =
                inl (Joi.mkError k Joi.object_unknown)
              /\ exists pre post,
                   Object_keys p = pre ++ k :: post
                   /\ List.forallb (Joi.known userPostRequestSchema) pre = true
                   /\ Joi.known userPostRequestSchema k = false
          | None =>
              Joi.validate userPostRequestSchema p = inr p
              /\ List.forallb (Joi.known userPostRequestSchema) (Object_keys p) = true
          end
      end)
  /\ (rule_of "first_name" = Some (Joi.mkString [Joi.Min 3; Joi.Max 64] true)
      /\ rule_of "last_name" = Some (Joi.mkString [Joi.Min 3; Joi.Max 64] false)
      /\ rule_of "city" = Some (Joi.mkString [Joi.Min 1; Joi.Max 64] false)
      /\ rule_of "country" = Some (Joi.mkString [Joi.Min 1; Joi.Max 64] true))
  /\ (forall (lo hi : nat) (req : bool) (v : value),
        Joi.validate_string (Joi.mkString [Joi.Min lo; Joi.Max hi] req) v =
          match v with
          | None => if req then Some Joi.any_required else None
          | Some (JStr s) =>
              if (List.length s =? 0)%nat then Some Joi.string_empty
              else if (List.length s <? lo)%nat then Some (Joi.string_min lo)
              else if (hi <? List.length s)%nat then Some (Joi.string_max hi)
              else None
          | Some _ => Some Joi.string_base
          end).
Proof.
  split; [|split].
  - intros p. unfold first_failing, schema_keys. cbn [List.find].
    rewrite (field_passes_eq "first_name"
               (Joi.string |> Joi.min 3 |> Joi.max 64 |> Joi.required) p eq_refl).
    rewrite (field_passes_eq "last_name"
               (Joi.string |> Joi.min 3 |> Joi.max 64) p eq_refl).
    rewrite (field_passes_eq "city"
               (Joi.string |> Joi.min 1 |> Joi.max 64) p eq_refl).
    rewrite (field_passes_eq "country"
               (Joi.string |> Joi.min 1 |> Joi.max 64 |> Joi.required) p eq_refl).
    unfold Joi.validate, userPostRequestSchema. cbn [Joi.validate_children].
    repeat match goal with
           | |- context [Joi.validate_string ?sch ?v] =>
               let E := fresh "E" in
               destruct (Joi.validate_string sch v) eqn:E; cbn [negb]
           end;
      try (eexists; eexists; split; [reflexivity|]; split; [eassumption|reflexivity]).
    fold userPostRequestSchema.
    destruct (Joi.unprocessed userPostRequestSchema p) as [k|] eqn:U.
    + split; [reflexivity|].
      destruct (unprocessed_first p k U) as (pre & post & H). now exists pre, post.
    + split; [reflexivity|].
      apply unprocessed_all_known in U. unfold all_known in U.
      rewrite forallb_forall in *. intros k Hk. apply U. now apply In_Object_keys.
  - repeat split.
  - intros lo hi req v. destruct v as [[| | |s| |]|]; try reflexivity.
    destruct s as [|x s]; [reflexivity|].
    cbn [Joi.validate_string Joi.rules Joi.check_rules Joi.check_rule].
    change (List.length (x :: s) =? 0)%nat with false. cbv iota.
    rewrite Nat.ltb_antisym, (Nat.ltb_antisym (List.length (x :: s)) hi).
    destruct (lo <=? List.length (x :: s))%nat; cbn [negb]; [|reflexivity].
    rewrite Nat.leb_antisym.
    now destruct (hi <? List.length (x :: s))%nat.
Qed.

(** *** Values that are not strings *)

(** X10. For each of the four keys of the schema, required or not, a
    value that is present but is not a non-empty string (a number, a
    boolean, null, an array, an object, the empty string) makes the
    validator refuse the payload. *)
Theorem non_string_value_refused :
  forall (p : object) (k : String.string) (v : json),
    In k schema_keys ->
    get (lit k) p = Some v ->
    (forall s, v = JStr s -> s = []) ->
    field_passes k p = false
    /\ exists e, Joi.validate userPostRequestSchema p = inl e.
Proof.
  intros p k v Hk Hv Hs.
  assert (B : forall sch, Joi.validate_string sch (Some v) <> None).
  { intros sch. unfold Joi.validate_string.
    destruct v as [| | |s| |]; try discriminate.
    rewrite (Hs s eq_refl). discriminate. }
  assert (F : field_passes k p = false).
  { unfold schema_keys in Hk. cbn [In] in Hk.
    destruct Hk as [<-|[<-|[<-|[<-|[]]]]];
      [ rewrite (field_passes_eq "first_name" _ p eq_refl)
      | rewrite (field_passes_eq "last_name" _ p eq_refl)
      | rewrite (field_passes_eq "city" _ p eq_refl)
      | rewrite (field_passes_eq "country" _ p eq_refl) ];
      rewrite Hv;
      match goal with
      | |- context [Joi.validate_string ?sch _] =>
          specialize (B sch); destruct (Joi.validate_string sch (Some v))
      end; congruence. }
  split; [exact F|]. apply accepted_false.
  destruct (accepted p) eqn:A; [|reflexivity].
  apply accepted_iff in A as [A _]. apply fields_ok_iff in A as (A1 & A2 & A3 & A4).
  unfold schema_keys in Hk. cbn [In] in Hk.
  destruct Hk as [<-|[<-|[<-|[<-|[]]]]]; congruence.
Qed.

Lemma non_string_value_refused_witness :
  exists e,
    Joi.validate userPostRequestSchema
      [ (lit "first_name", JStr (lit "Ada"));
        (lit "city", JStr []);
        (lit "country", JStr (lit "UK")) ] = inl e.
Proof.
  refine (proj2 (non_string_value_refused
                   [ (lit "first_name", JStr (lit "Ada"));
                     (lit "city", JStr []);
                     (lit "country", JStr (lit "UK")) ]
                   "city" (JStr []) _ eq_refl _)).
  - simpl. right. right. left. reflexivity.
  - intros s [= <-]. reflexivity.
Defined.

(** *** The id is the server's to give *)

(** X11. The schema has no [id] key, so a payload that carries an
    [id] is refused, whatever else it holds: the reply is a 400 error
    and neither the collection nor the counter changes. *)
Theorem payload_with_id_refused :
  forall (err_message : Joi.error -> jsstring) (p : object) (s : state),
    In (lit "id") (keys p) ->
    exists e, postUser err_message p s =
                (Failed (Boom.badRequest (err_message e)), s).
Proof.
  intros err_message p s H.
  destruct (find_unknown p (lit "id") H eq_refl) as [k [U _]].
  unfold postUser, Joi.validate. rewrite U.
  destruct (Joi.validate_children userPostRequestSchema p) as [e|];
    eexists; reflexivity.
Qed.

Lemma payload_with_id_refused_witness :
  exists e,
    postUser Joi.path
      [ (lit "id", JNum (inject_Z 1));
        (lit "first_name", JStr (lit "Ada"));
        (lit "country", JStr (lit "UK")) ] (start initUserCollection) =
    (Failed (Boom.badRequest (Joi.path e)), start initUserCollection).
Proof.
  refine (payload_with_id_refused Joi.path
            [ (lit "id", JNum (inject_Z 1));
              (lit "first_name", JStr (lit "Ada"));
              (lit "country", JStr (lit "UK")) ] (start initUserCollection) _).
  simpl. left. reflexivity.
Defined.

(** *** The records of the store conform to the schema *)

Lemma payload_of_get (u : User.t) :
  get (lit "first_name") (payload_of u) = User.first_name u
  /\ get (lit "last_name") (payload_of u) = User.last_name u
  /\ get (lit "city") (payload_of u) = User.city u
  /\ get (lit "country") (payload_of u) = User.country u.
Proof.
  destruct u as [i [f|] [l|] [c|] [co|]]; repeat split; reflexivity.
Qed.

Lemma payload_of_known (u : User.t) : all_known (payload_of u) = true.
Proof.
  destruct u as [i [f|] [l|] [c|] [co|]]; reflexivity.
Qed.

(** A rule looks at the value of its key and at nothing else. *)
Lemma fields_ok_get (p q : object) :
  get (lit "first_name") p = get (lit "first_name") q ->
  get (lit "last_name") p = get (lit "last_name") q ->
  get (lit "city") p = get (lit "city") q ->
  get (lit "country") p = get (lit "country") q ->
  fields_ok p = fields_ok q.
Proof.
  intros H1 H2 H3 H4. unfold fields_ok, userPostRequestSchema.
  cbn [Joi.validate_children]. now rewrite H1, H2, H3, H4.
Qed.

Lemma newUser_conforms (n : Z) (p : object) :
  accepted p = true -> accepted (payload_of (newUser n p)) = true.
Proof.
  intros A. apply accepted_iff in A as [A _]. apply accepted_iff.
  split; [|apply payload_of_known].
  rewrite <- A. destruct (payload_of_get (newUser n p)) as (H1 & H2 & H3 & H4).
  now apply fields_ok_get.
Qed.

Lemma accepted_payloads_all (rs : list request) :
  Forall (fun p => accepted p = true) (accepted_payloads rs).
Proof.
  induction rs as [|[| |p] rs IH]; cbn [accepted_payloads]; auto.
  destruct (accepted p) eqn:A; auto.
Qed.

Lemma records_from_conform (n : Z) (ps : list object) :
  Forall (fun p => accepted p = true) ps ->
  Forall (fun u => accepted (payload_of u) = true) (records_from n ps).
Proof.
  intros H. revert n. induction H as [|p ps Hp _ IH]; intros n;
    cbn [records_from]; constructor; auto using newUser_conforms.
Qed.

Lemma required_string (lo hi : nat) (v : value) :
  (0 < lo)%nat ->
  Joi.validate_string (Joi.mkString [Joi.Min lo; Joi.Max hi] true) v = None ->
  exists s, v = Some (JStr s) /\ (lo <= List.length s <= hi)%nat.
Proof.
  intros Hlo H. destruct v as [[| | |s| |]|]; try discriminate;
    try (destruct s; discriminate).
  exists s. split; [reflexivity|]. now apply (string_between lo hi true s Hlo).
Qed.

Lemma optional_string (lo hi : nat) (v : value) :
  (0 < lo)%nat ->
  Joi.validate_string (Joi.mkString [Joi.Min lo; Joi.Max hi] false) v = None ->
  v = None \/ exists s, v = Some (JStr s) /\ (lo <= List.length s <= hi)%nat.
Proof.
  intros Hlo H. destruct v as [[| | |s| |]|]; try discriminate; [right|now left].
  exists s. split; [reflexivity|]. now apply (string_between lo hi false s Hlo).
Qed.

Lemma conforming_fields (u : User.t) :
  accepted (payload_of u) = true ->
  (exists s, User.first_name u = Some (JStr s) /\ (3 <= List.length s <= 64)%nat)
  /\ (User.last_name u = None
      \/ exists s, User.last_name u = Some (JStr s) /\ (3 <= List.length s <= 64)%nat)
  /\ (User.city u = None
      \/ exists s, User.city u = Some (JStr s) /\ (1 <= List.length s <= 64)%nat)
  /\ (exists s, User.country u = Some (JStr s) /\ (1 <= List.length s <= 64)%nat).
Proof.
  intros A. apply accepted_iff in A as [A _].
  apply fields_ok_iff in A as (A1 & A2 & A3 & A4).
  destruct (payload_of_get u) as (H1 & H2 & H3 & H4).
  rewrite (field_passes_eq "first_name" _ _ eq_refl), H1 in A1.
  rewrite (field_passes_eq "last_name" _ _ eq_refl), H2 in A2.
  rewrite (field_passes_eq "city" _ _ eq_refl), H3 in A3.
  rewrite (field_passes_eq "country" _ _ eq_refl), H4 in A4.
  repeat split.
  - apply required_string; [lia|].
    now destruct (Joi.validate_string _ (User.first_name u)).
  - apply optional_string; [lia|].
    now destruct (Joi.validate_string _ (User.last_name u)).
  - apply optional_string; [lia|].
    now destruct (Joi.validate_string _ (User.city u)).
  - apply required_string; [lia|].
    now destruct (Joi.validate_string _ (User.country u)).
Qed.

(** X12. When every record of the seed, less its id, is a payload that
    the validator accepts (as in db/users.json), so is every record of
    the collection after any run: the handler of POST only ever stores
    what was validated. Each stored record then has a first_name of 3
    to 64 code units and a country of 1 to 64, and its last_name and
    its city are either undefined or strings of 3 to 64 and of 1 to
    64 code units. *)
Theorem store_conforms_to_schema :
  forall (err_message : Joi.error -> jsstring) (seed : list User.t) (rs : list request),
    Forall (fun u => accepted (payload_of u) = true) seed ->
    forall u, In u (Lowdb.users (db (snd (serve err_message rs (start seed))))) ->
      accepted (payload_of u) = true
      /\ (exists s, User.first_name u = Some (JStr s) /\ (3 <= List.length s <= 64)%nat)
      /\ (User.last_name u = None
          \/ exists s, User.last_name u = Some (JStr s)
                       /\ (3 <= List.length s <= 64)%nat)
      /\ (User.city u = None
          \/ exists s, User.city u = Some (JStr s) /\ (1 <= List.length s <= 64)%nat)
      /\ (exists s, User.country u = Some (JStr s) /\ (1 <= List.length s <= 64)%nat).
Proof.
  intros err_message seed rs Hseed u Hu.
  assert (A : accepted (payload_of u) = true).
  { rewrite serve_users in Hu. cbn [start db Lowdb.defaults Lowdb.users] in Hu.
    apply in_app_or in Hu as [Hu|Hu].
    - rewrite Forall_forall in Hseed. now apply Hseed.
    - pose proof (records_from_conform (uuid (start seed)) _ (accepted_payloads_all rs))
        as R.
      rewrite Forall_forall in R. now apply R. }
  split; [exact A|]. now apply conforming_fields.
Qed.

Lemma store_conforms_to_schema_witness :
  accepted (payload_of (user 3 (lit "Donalt") (lit "Giannoni")
                          (lit "General Elizardo Aquino") (lit "Paraguay"))) = true.
Proof.
  refine (proj1 (store_conforms_to_schema (fun _ => lit "invalid") initUserCollection []
                   _ _ _)).
  - apply Forall_forall. intros u Hu. simpl in Hu.
    repeat (destruct Hu as [<-|Hu]; [reflexivity|]). contradiction.
  - simpl. right. right. left. reflexivity.
Defined.
